(** * Temporal activation cache with dependency-graph invalidation

    A shallow embedding of [backend/app/services/research/temporal_cache.py]:
    [DependencyGraph], [TemporalCache] and [SparseInferenceEngine], and of
    the method of [musicgen_integration_production.py] that builds the
    cache ([enable_temporal_cache]).

    Modelling conventions.
    - Python exceptions are the constructors of [PyExc]; a call that raises
      returns [Raise e].  Python does not roll back state on an exception,
      so stateful code returns the state reached at the raise as well.
    - A [while] loop is run with a fuel argument; running out of fuel
      ([None]) means the loop has not finished.  Where the loop does
      terminate, a lemma shows how much fuel is enough.
    - Python [set]s of node ids are stdpp [gset string]; iterating over a
      set is iterating over [elements].  A Python [dict] whose iteration
      order matters (the cache, where [min] breaks ties by position) is an
      association list in insertion order with unique keys.
    - Tensors only matter through [element_size()] and [nelement()]; the
      sample values, all drawn by [torch.randn], are not modelled.
    - [time.time()] readings are [Z]: only their order is ever used. *)

From Stdlib Require Import ZArith QArith String Ascii List.
From stdpp Require Import gmap strings list fin_maps.

Open Scope Z_scope.

(** ** Python runtime pieces *)

Inductive PyExc :=
| TypeError
| ValueError
| ZeroDivisionError
| RuntimeError
| IndexError
| KeyError
| OverflowError.

Inductive Result (A : Type) :=
| Ok (a : A)
| Raise (e : PyExc).
Arguments Ok {A} a.
Arguments Raise {A} e.

(** [str(i)] for a Python int: decimal digits, with a leading ['-']. *)
Fixpoint digits_of (fuel : nat) (n : Z) (acc : string) : string :=
  match fuel with
  | O => acc
  | S f =>
      let acc' := String (ascii_of_nat (48 + Z.to_nat (n mod 10))) acc in
      if n <? 10 then acc' else digits_of f (n / 10) acc'
  end.

Definition py_str_int (i : Z) : string :=
  if i <? 0
  then String "-" (digits_of (S (Z.to_nat (Z.log2 (- i)))) (- i) EmptyString)
  else digits_of (S (Z.to_nat (Z.log2 i))) i EmptyString.

(** [f"frame_{i}"] *)
Definition frame_key (i : Z) : string := append "frame_" (py_str_int i).

(** [int(s)] on the strings this program parses: an optional sign and
    decimal digits.  (Python also accepts surrounding whitespace and
    underscores between digits; such strings never reach the call.) *)
Definition digit_val (c : ascii) : option Z :=
  let n := nat_of_ascii c in
  if (48 <=? n)%nat && (n <=? 57)%nat then Some (Z.of_nat n - 48) else None.

Fixpoint parse_digits (s : string) (acc : Z) : option Z :=
  match s with
  | EmptyString => Some acc
  | String c s' =>
      match digit_val c with
      | Some d => parse_digits s' (acc * 10 + d)
      | None => None
      end
  end.

Definition parse_unsigned (s : string) : Result Z :=
  match s with
  | EmptyString => Raise ValueError
  | _ => match parse_digits s 0 with Some n => Ok n | None => Raise ValueError end
  end.

Definition py_int (s : string) : Result Z :=
  match s with
  | String "-" s' =>
      match parse_unsigned s' with Ok n => Ok (- n) | Raise e => Raise e end
  | String "+" s' => parse_unsigned s'
  | _ => parse_unsigned s
  end.

(** [s.split(sep)] *)
Fixpoint py_split (sep : ascii) (s : string) : list string :=
  match s with
  | EmptyString => [EmptyString]
  | String c s' =>
      let parts := py_split sep s' in
      if Ascii.eqb c sep then EmptyString :: parts
      else match parts with
           | p :: ps => String c p :: ps
           | [] => [String c EmptyString]
           end
  end.

(** [lst[i]] for a list, raising [IndexError] out of range. *)
Definition py_index {A} (l : list A) (i : nat) : Result A :=
  match nth_error l i with Some x => Ok x | None => Raise IndexError end.

(** Python string comparison: lexicographic on code points. *)
Fixpoint py_str_lt (a b : string) : bool :=
  match a, b with
  | EmptyString, EmptyString => false
  | EmptyString, String _ _ => true
  | String _ _, EmptyString => false
  | String c a', String d b' =>
      if (nat_of_ascii c <? nat_of_ascii d)%nat then true
      else if (nat_of_ascii d <? nat_of_ascii c)%nat then false
      else py_str_lt a' b'
  end.

(** [sorted(xs)] on strings (an insertion sort; on distinct strings every
    correct sort returns this same list). *)
Fixpoint py_insert (x : string) (l : list string) : list string :=
  match l with
  | [] => [x]
  | y :: l' => if py_str_lt x y then x :: l else y :: py_insert x l'
  end.

Definition py_sorted (l : list string) : list string := fold_right py_insert [] l.

(** [range(a, b)] *)
Definition py_range (a b : Z) : list Z :=
  map (fun k => a + Z.of_nat k) (seq 0 (Z.to_nat (b - a))).

(** ** DependencyGraph *)

Module DepGraph.

Record DependencyGraph := mkGraph {
  graph : gmap string (gset string);          (* node_id -> dependencies *)
  reverse_graph : gmap string (gset string)   (* node_id -> dependents *)
}.

Definition empty_graph : DependencyGraph := mkGraph ∅ ∅.

(** [graph[node_id].add(depends_on)] and
    [reverse_graph[depends_on].add(node_id)] on [defaultdict(set)]s. *)
Definition add_dependency (node_id depends_on : string) (g : DependencyGraph)
  : DependencyGraph :=
  mkGraph
    (<[node_id := {[depends_on]} ∪ default ∅ (graph g !! node_id)]> (graph g))
    (<[depends_on := {[node_id]} ∪ default ∅ (reverse_graph g !! depends_on)]>
       (reverse_graph g)).

Definition get_dependencies (g : DependencyGraph) (node_id : string) : gset string :=
  default ∅ (graph g !! node_id).

Definition get_dependents (g : DependencyGraph) (node_id : string) : gset string :=
  default ∅ (reverse_graph g !! node_id).

(** One pass of [for dependent in dependents: if dependent not in
    affected: affected.add(dependent); queue.append(dependent)]. *)
Definition visit (st : gset string * list string) (dependent : string)
  : gset string * list string :=
  let '(affected, queue) := st in
  if decide (dependent ∈ affected) then (affected, queue)
  else ({[dependent]} ∪ affected, queue ++ [dependent]).

(** The [while queue:] loop of [get_affected_nodes].  [visited] is a ghost
    log of the nodes popped so far, in order; the source keeps no such list. *)
Fixpoint bfs_loop (g : DependencyGraph) (fuel : nat) (affected : gset string)
    (queue visited : list string) : option (gset string * list string) :=
  match queue with
  | [] => Some (affected, visited)
  | node :: queue' =>
      match fuel with
      | O => None
      | S f =>
          let '(affected', queue'') :=
            fold_left visit (elements (get_dependents g node)) (affected, queue') in
          bfs_loop g f affected' queue'' (visited ++ [node])
      end
  end.

(** Every node that is a dependent of some node. *)
Definition all_dependents (g : DependencyGraph) : gset string :=
  ⋃ (snd <$> map_to_list (reverse_graph g)).

(** Enough fuel for the loop: see [bfs_loop_fuel]. *)
Definition bfs_fuel (g : DependencyGraph) (changed_nodes : gset string) : nat :=
  size (changed_nodes ∪ all_dependents g).

Definition get_affected_nodes_run (g : DependencyGraph) (changed_nodes : gset string)
  : option (gset string * list string) :=
  bfs_loop g (bfs_fuel g changed_nodes) changed_nodes (elements changed_nodes) [].

(** [get_affected_nodes]; the [None] branch is never taken
    ([get_affected_nodes_run_some]). *)
Definition get_affected_nodes (g : DependencyGraph) (changed_nodes : gset string)
  : gset string :=
  match get_affected_nodes_run g changed_nodes with
  | Some (affected, _) => affected
  | None => changed_nodes
  end.

(** Downstream closure of a set of nodes over the dependents relation. *)
Inductive downstream (g : DependencyGraph) (C : gset string) : string -> Prop :=
| down_changed x : x ∈ C -> downstream g C x
| down_dependent x y :
    downstream g C x -> y ∈ get_dependents g x -> downstream g C y.

End DepGraph.


(** ** TemporalCache *)

Module TCache.

(** A tensor, seen through [element_size()] and [nelement()]. *)
Record Tensor := mkTensor { element_size : N; nelement : N }.

(** [activations.element_size() * activations.nelement()] *)
Definition tensor_bytes (t : Tensor) : Z := Z.of_N (element_size t * nelement t).

Record CacheEntry := mkEntry {
  timestamp : Z;
  activations : Tensor;
  dependencies : gset string;
  hit_count : Z;
  size_bytes : Z
}.

Record TemporalCache := mkCache {
  max_size_bytes : Z;
  eviction_policy : string;
  cache : list (string * CacheEntry);
  current_size_bytes : Z;
  hits : Z;
  misses : Z;
  evictions : Z
}.

(** *** The [dict] operations used on [self.cache] *)

(** [d.get(k)] / [k in d] *)
Fixpoint dict_get {V} (k : string) (d : list (string * V)) : option V :=
  match d with
  | [] => None
  | (k', v) :: d' => if String.eqb k k' then Some v else dict_get k d'
  end.

(** [d[k] = v]: an existing key keeps its position, a new key goes last. *)
Fixpoint dict_set {V} (k : string) (v : V) (d : list (string * V)) : list (string * V) :=
  match d with
  | [] => [(k, v)]
  | (k', v') :: d' => if String.eqb k k' then (k, v) :: d' else (k', v') :: dict_set k v d'
  end.

(** [del d[k]] (only ever applied to a present key). *)
Fixpoint dict_del {V} (k : string) (d : list (string * V)) : list (string * V) :=
  match d with
  | [] => []
  | (k', v') :: d' => if String.eqb k k' then d' else (k', v') :: dict_del k d'
  end.

(** [min(d.keys(), key=f)]: the first key, in iteration order, whose value
    is minimal; [ValueError] on an empty dict. *)
Fixpoint argmin_from {V} (f : V -> Z) (best : string * V) (rest : list (string * V))
  : string * V :=
  match rest with
  | [] => best
  | (k, v) :: r => if f v <? f (snd best) then argmin_from f (k, v) r else argmin_from f best r
  end.

Definition py_min_key {V} (f : V -> Z) (d : list (string * V)) : Result string :=
  match d with
  | [] => Raise ValueError
  | kv :: r => Ok (fst (argmin_from f kv r))
  end.

(** *** Field updates *)

Definition set_cache (s : TemporalCache) (c : list (string * CacheEntry)) (cur : Z)
  : TemporalCache :=
  mkCache (max_size_bytes s) (eviction_policy s) c cur (hits s) (misses s) (evictions s).

Definition set_counters (s : TemporalCache) (h m e : Z) : TemporalCache :=
  mkCache (max_size_bytes s) (eviction_policy s) (cache s) (current_size_bytes s) h m e.

(** *** Methods *)

(** [TemporalCache(max_size_mb, eviction_policy)]:
    [max_size_bytes = int(max_size_mb * 1024 * 1024)] ([int] truncates
    toward zero). *)
Definition init (max_size_mb : Q) (eviction_policy : string) : TemporalCache :=
  mkCache (Z.quot (Qnum max_size_mb * 1048576) (Zpos (Qden max_size_mb)))
    eviction_policy [] 0 0 0 0.

(** [get(key)]; [now] is the [time.time()] reading of the call. *)
Definition get (key : string) (now : Z) (s : TemporalCache) : TemporalCache * option Tensor :=
  match dict_get key (cache s) with
  | Some e =>
      let e' := mkEntry now (activations e) (dependencies e) (hit_count e + 1) (size_bytes e) in
      (mkCache (max_size_bytes s) (eviction_policy s) (dict_set key e' (cache s))
         (current_size_bytes s) (hits s + 1) (misses s) (evictions s),
       Some (activations e))
  | None => (set_counters s (hits s) (misses s + 1) (evictions s), None)
  end.

(** [invalidate(keys)] *)
Definition invalidate_one (s : TemporalCache) (key : string) : TemporalCache :=
  match dict_get key (cache s) with
  | Some e => set_cache s (dict_del key (cache s)) (current_size_bytes s - size_bytes e)
  | None => s
  end.

Definition invalidate (keys : list string) (s : TemporalCache) : TemporalCache :=
  fold_left invalidate_one keys s.

(** The body shared by the two branches of [_evict_one]. *)
Definition evict_by (f : CacheEntry -> Z) (s : TemporalCache) : Result TemporalCache :=
  match py_min_key f (cache s) with
  | Raise e => Raise e
  | Ok k =>
      match dict_get k (cache s) with
      | Some e =>
          Ok (mkCache (max_size_bytes s) (eviction_policy s) (dict_del k (cache s))
                (current_size_bytes s - size_bytes e) (hits s) (misses s) (evictions s + 1))
      | None => Raise KeyError
      end
  end.

(** [_evict_one()]: under a policy other than "lru" and "lfu" nothing happens. *)
Definition evict_one (s : TemporalCache) : Result TemporalCache :=
  if String.eqb (eviction_policy s) "lru" then evict_by timestamp s
  else if String.eqb (eviction_policy s) "lfu" then evict_by hit_count s
  else Ok s.

(** [while self.current_size_bytes + size_bytes > self.max_size_bytes: ...]
    The boolean says whether the loop exited normally ([true]) or by the
    [return] on an empty cache ([false]). *)
Fixpoint put_loop (fuel : nat) (sz : Z) (s : TemporalCache)
  : option (Result (bool * TemporalCache)) :=
  match fuel with
  | O => None
  | S f =>
      if current_size_bytes s + sz >? max_size_bytes s then
        match cache s with
        | [] => Some (Ok (false, s))
        | _ :: _ =>
            match evict_one s with
            | Ok s' => put_loop f sz s'
            | Raise e => Some (Raise e)
            end
        end
      else Some (Ok (true, s))
  end.

(** [put(key, activations, dependencies)]; [now] is the [time.time()]
    reading taken when the entry is built. *)
Definition put_fuel (fuel : nat) (key : string) (act : Tensor) (deps : gset string)
    (now : Z) (s : TemporalCache) : option (Result TemporalCache) :=
  let sz := tensor_bytes act in
  match put_loop fuel sz s with
  | None => None
  | Some (Raise e) => Some (Raise e)
  | Some (Ok (false, s')) => Some (Ok s')
  | Some (Ok (true, s')) =>
      Some (Ok (set_cache s' (dict_set key (mkEntry now act deps 0 sz) (cache s'))
                  (current_size_bytes s' + sz)))
  end.

(** One more iteration than there are entries; enough under "lru" and
    "lfu" ([C10]). *)
Definition put (key : string) (act : Tensor) (deps : gset string) (now : Z)
    (s : TemporalCache) : option (Result TemporalCache) :=
  put_fuel (S (length (cache s))) key act deps now s.

(** [clear()]: the counters are kept. *)
Definition clear (s : TemporalCache) : TemporalCache := set_cache s [] 0.

Record CacheStats := mkStats {
  st_hits : Z;
  st_misses : Z;
  st_hit_rate : Q;
  st_evictions : Z;
  st_current_size_mb : Q;
  st_max_size_mb : Q;
  st_utilization : Q;
  st_num_entries : Z
}.

(** [get_stats()]: [utilization] divides by [max_size_bytes]. *)
Definition get_stats (s : TemporalCache) : Result CacheStats :=
  let total := hits s + misses s in
  let hit_rate := if total >? 0 then (inject_Z (hits s) / inject_Z total)%Q else 0%Q in
  if max_size_bytes s =? 0 then Raise ZeroDivisionError
  else Ok (mkStats (hits s) (misses s) hit_rate (evictions s)
             (inject_Z (current_size_bytes s) / 1048576)%Q
             (inject_Z (max_size_bytes s) / 1048576)%Q
             (inject_Z (current_size_bytes s) / inject_Z (max_size_bytes s))%Q
             (Z.of_nat (length (cache s)))).

(** Sum of [size_bytes] over the stored entries. *)
Definition entries_bytes (d : list (string * CacheEntry)) : Z :=
  fold_right (fun kv acc => size_bytes (snd kv) + acc) 0 d.

Definition stored_bytes (s : TemporalCache) : Z := entries_bytes (cache s).

(** A client's calls on one cache. *)
Inductive CacheOp :=
| OpPut (key : string) (act : Tensor) (deps : gset string) (now : Z)
| OpGet (key : string) (now : Z)
| OpInvalidate (keys : list string)
| OpClear.

Definition exec_op (op : CacheOp) (s : TemporalCache) : option (Result TemporalCache) :=
  match op with
  | OpPut k a d t => put k a d t s
  | OpGet k t => Some (Ok (fst (get k t s)))
  | OpInvalidate ks => Some (Ok (invalidate ks s))
  | OpClear => Some (Ok (clear s))
  end.

(** The states after each operation that completes, in order. *)
Fixpoint run_ops (ops : list CacheOp) (s : TemporalCache) : list TemporalCache :=
  match ops with
  | [] => []
  | op :: ops' =>
      match exec_op op s with
      | Some (Ok s') => s' :: run_ops ops' s'
      | _ => []
      end
  end.

End TCache.

(** ** SparseInferenceEngine *)

Module Sparse.
Import DepGraph TCache.

(** [EditOperation]; [parameters] is never read by the engine and is left out. *)
Record EditOperation := mkEdit {
  edit_id : string;
  edit_type : string;
  start_time : Q;
  end_time : Q;
  affected_region : Z * Z
}.

(** The engine's state.  [current_audio] is [None] or a tensor of shape
    [(1, n)], kept as [Some n].  [clock] is the next [time.time()] reading
    (the model's clock advances at each reading).  [recompute_log] is a
    ghost log of the frames [apply_edit] has recomputed, in order. *)
Record Engine := mkEngine {
  frame_size : Z;
  dependency_graph : DependencyGraph;
  cache : TemporalCache;
  current_audio : option Z;
  current_length_frames : Z;
  clock : Z;
  recompute_log : list string
}.

(** [SparseInferenceEngine(model, cache_size_mb, frame_size)]: the cache
    gets the default policy "lru". *)
Definition new_engine (cache_size_mb : Q) (frame_size : Z) : Engine :=
  mkEngine frame_size empty_graph (TCache.init cache_size_mb "lru") None 0 0 [].

(** *** A state and exception monad *)

Definition M (A : Type) : Type := Engine -> option (Engine * Result A).

Definition ret {A} (a : A) : M A := fun e => Some (e, Ok a).

Definition bind {A B} (m : M A) (k : A -> M B) : M B :=
  fun e =>
    match m e with
    | None => None
    | Some (e', Ok a) => k a e'
    | Some (e', Raise x) => Some (e', Raise x)
    end.

Notation "x <- m ;; k" := (bind m (fun x => k))
  (at level 100, m at next level, right associativity).
Notation "m ;;; k" := (bind m (fun _ => k)) (at level 100, right associativity).

Definition throw {A} (x : PyExc) : M A := fun e => Some (e, Raise x).

Definition lift {A} (r : Result A) : M A :=
  match r with Ok a => ret a | Raise x => throw x end.

Definition get_engine : M Engine := fun e => Some (e, Ok e).

Definition modify (f : Engine -> Engine) : M unit := fun e => Some (f e, Ok tt).

Definition with_cache (c : TemporalCache) (e : Engine) : Engine :=
  mkEngine (frame_size e) (dependency_graph e) c (current_audio e)
    (current_length_frames e) (clock e) (recompute_log e).

Definition with_graph (g : DependencyGraph) (e : Engine) : Engine :=
  mkEngine (frame_size e) g (cache e) (current_audio e)
    (current_length_frames e) (clock e) (recompute_log e).

Definition with_audio (audio : option Z) (frames : Z) (e : Engine) : Engine :=
  mkEngine (frame_size e) (dependency_graph e) (cache e) audio frames
    (clock e) (recompute_log e).

Definition with_clock (t : Z) (e : Engine) : Engine :=
  mkEngine (frame_size e) (dependency_graph e) (cache e) (current_audio e)
    (current_length_frames e) t (recompute_log e).

Definition log_recompute (frame_id : string) (e : Engine) : Engine :=
  mkEngine (frame_size e) (dependency_graph e) (cache e) (current_audio e)
    (current_length_frames e) (clock e) (recompute_log e ++ [frame_id]).

(** [time.time()] *)
Definition time_now : M Z := fun e => Some (with_clock (clock e + 1) e, Ok (clock e)).

(** [self.cache.get(key)] (a clock reading is taken on every call; it is
    only used on a hit). *)
Definition cache_get (key : string) : M (option Tensor) :=
  t <- time_now ;;
  fun e => let '(c', r) := TCache.get key t (cache e) in Some (with_cache c' e, Ok r).

(** [self.cache.put(key, activations, dependencies)] *)
Definition cache_put (key : string) (act : Tensor) (deps : gset string) : M unit :=
  t <- time_now ;;
  fun e =>
    match TCache.put key act deps t (cache e) with
    | None => None
    | Some (Ok c') => Some (with_cache c' e, Ok tt)
    | Some (Raise x) => Some (e, Raise x)
    end.

Definition cache_invalidate (keys : list string) : M unit :=
  modify (fun e => with_cache (TCache.invalidate keys (cache e)) e).

(** *** Tensors and Python arithmetic *)

(** [torch.randn(1, n)]: float32 (4 bytes per element); a negative size
    raises. *)
Definition py_randn (n : Z) : Result Tensor :=
  if n <? 0 then Raise RuntimeError else Ok (mkTensor 4 (Z.to_N n)).

(** Width of the slice [t[:, s:e]] of a tensor with [n] columns. *)
Definition slice_bound (n i : Z) : Z := if i <? 0 then Z.max 0 (i + n) else Z.min i n.
Definition slice_width (n s e : Z) : Z := Z.max 0 (slice_bound n e - slice_bound n s).

(** [self.current_audio[:, s:e] = frame_audio] with [frame_audio] of shape
    [(1, k)]: [TypeError] on [None]; otherwise the value must broadcast to
    the slice's shape [(1, w)], that is [k = w] or [k = 1]. *)
Definition write_frame (s e : Z) (frame_audio : Tensor) : M unit :=
  fun eng =>
    match current_audio eng with
    | None => Some (eng, Raise TypeError)
    | Some n =>
        let k := Z.of_N (nelement frame_audio) in
        if (k =? slice_width n s e) || (k =? 1) then Some (eng, Ok tt)
        else Some (eng, Raise RuntimeError)
    end.

(** [int(a / b)] on ints: true division, then truncation toward zero
    (exact for |a| below 2^53). *)
Definition py_int_truediv (a b : Z) : Result Z :=
  if b =? 0 then Raise ZeroDivisionError else Ok (Z.quot a b).

(** [a // b] *)
Definition py_floordiv (a b : Z) : Result Z :=
  if b =? 0 then Raise ZeroDivisionError else Ok (a / b).

(** [int(q)] for a float, truncating toward zero. *)
Definition py_int_of_q (q : Q) : Z := Z.quot (Qnum q) (Zpos (Qden q)).

(** *** Binary64 floats

    A finite float is kept as the rational it denotes; [b64_round] is the
    IEEE 754 round-to-nearest-even to binary64 (subnormals included), and
    [None] stands for an overflow to infinity. *)

(** [2 ^ e] as a rational, for any integer [e]. *)
Definition pow2q (e : Z) : Q :=
  if 0 <=? e then inject_Z (2 ^ e) else 1 # Z.to_pos (2 ^ (- e)).

(** [n / d] rounded to an integer, ties to even ([n >= 0]). *)
Definition round_half_even (n : Z) (d : positive) : Z :=
  let f := n / Zpos d in
  let r := n mod Zpos d in
  match Z.compare (2 * r) (Zpos d) with
  | Lt => f
  | Gt => f + 1
  | Eq => if Z.even f then f else f + 1
  end.

(** The exponent [e] with [2^e <= n/d < 2^(e+1)], for [n > 0]. *)
Definition floor_log2_q (n : Z) (d : positive) : Z :=
  let e0 := Z.log2 n - Z.log2 (Zpos d) in
  if Qle_bool (pow2q e0) (n # d) then e0 else e0 - 1.

(** Rounding to binary64: 53-bit significands, exponents down to -1022
    (below that the quantum stays [2^-1074]); a result of magnitude
    [2^1024] or more overflows. *)
Definition b64_round (q : Q) : option Q :=
  let a := Z.abs (Qnum q) in
  let d := Qden q in
  if a =? 0 then Some 0%Q else
  let qe := Z.max (floor_log2_q a d) (-1022) - 52 in
  let m := if 0 <=? qe then round_half_even a (d * Z.to_pos (2 ^ qe))
           else round_half_even (a * 2 ^ (- qe)) d in
  if Qle_bool (pow2q 1024) (inject_Z m * pow2q qe) then None
  else Some (inject_Z (Z.sgn (Qnum q) * m) * pow2q qe)%Q.

(** [int(x * n)] for a float [x] and an int [n].  [x] is the float nearest
    the given rational (infinite beyond the float range), as for a float
    literal.  [n] is converted to a float ([OverflowError] if too large),
    the product is rounded, and [int] raises [OverflowError] on an infinite
    product and [ValueError] on [inf * 0.0], which is NaN. *)
Definition int_of_float_mul (x : Q) (n : Z) : Result Z :=
  match b64_round (inject_Z n) with
  | None => Raise OverflowError
  | Some y =>
      match b64_round x with
      | None => if Qeq_bool y 0 then Raise ValueError else Raise OverflowError
      | Some x' =>
          match b64_round (x' * y) with
          | None => Raise OverflowError
          | Some p => Ok (py_int_of_q p)
          end
      end
  end.

(** *** generate_full *)

(** One iteration of [for i in range(num_frames)] over a buffer of [n]
    samples. *)
Definition generate_frame (n i : Z) : M unit :=
  eng <- get_engine ;;
  let fs := frame_size eng in
  let frame_start := i * fs in
  let frame_end := (i + 1) * fs in
  let frame_audio := mkTensor 4 (Z.to_N (slice_width n frame_start frame_end)) in
  let frame_id := frame_key i in
  (if i >? 0
   then modify (fun e => with_graph
                  (add_dependency frame_id (frame_key (i - 1)) (dependency_graph e)) e)
   else ret tt) ;;;
  let dependencies : gset string :=
    if i >? 0 then {[frame_key (i - 1)]} else ∅ in
  cache_put frame_id frame_audio dependencies.

Fixpoint generate_frames (n : Z) (idx : list Z) : M unit :=
  match idx with
  | [] => ret tt
  | i :: rest => generate_frame n i ;;; generate_frames n rest
  end.

(** [generate_full(prompt, duration_seconds, sample_rate)]; returns the
    number of samples of the new buffer. *)
Definition generate_full (prompt : string) (duration_seconds : Q) (sample_rate : Z) : M Z :=
  start_time <- time_now ;;
  num_samples <- lift (int_of_float_mul duration_seconds sample_rate) ;;
  audio <- lift (py_randn num_samples) ;;
  eng <- get_engine ;;
  num_frames <- lift (py_floordiv num_samples (frame_size eng)) ;;
  generate_frames num_samples (py_range 0 num_frames) ;;;
  modify (with_audio (Some num_samples) num_frames) ;;;
  end_time <- time_now ;;
  ret num_samples.

(** *** apply_edit *)

(** [all(self.cache.get(dep) is not None for dep in dependencies)],
    stopping at the first miss. *)
Fixpoint all_deps_cached (deps : list string) : M bool :=
  match deps with
  | [] => ret true
  | d :: ds =>
      r <- cache_get d ;;
      match r with
      | Some _ => all_deps_cached ds
      | None => ret false
      end
  end.

(** The body of [for frame_id in sorted(affected_frames)]. *)
Definition recompute_frame (frame_id : string) : M unit :=
  part <- lift (py_index (py_split "_" frame_id) 1) ;;
  frame_idx <- lift (py_int part) ;;
  eng <- get_engine ;;
  let fs := frame_size eng in
  let dependencies := get_dependencies (dependency_graph eng) frame_id in
  cached <- all_deps_cached (elements dependencies) ;;
  frame_audio <- (if cached then lift (py_randn fs) else lift (py_randn fs)) ;;
  modify (log_recompute frame_id) ;;;
  cache_put frame_id frame_audio dependencies ;;;
  write_frame (frame_idx * fs) ((frame_idx + 1) * fs) frame_audio.

Fixpoint recompute_frames (ids : list string) : M unit :=
  match ids with
  | [] => ret tt
  | f :: rest => recompute_frame f ;;; recompute_frames rest
  end.

(** [{f"frame_{i}" for i in range(start_frame, end_frame + 1)}] *)
Definition changed_frames (start_frame end_frame : Z) : gset string :=
  list_to_set (map frame_key (py_range start_frame (end_frame + 1))).

Record Metrics := mkMetrics {
  latency_ms : Z;
  frames_recomputed : Z;
  frames_total : Z;
  recompute_ratio : Q;
  speedup : Q;
  cache_stats : CacheStats
}.

(** [apply_edit(edit)]; the entries of the [metrics] dict are evaluated in
    their source order. *)
Definition apply_edit (edit : EditOperation) : M Metrics :=
  start_time <- time_now ;;
  eng <- get_engine ;;
  start_frame <- lift (py_int_truediv (fst (affected_region edit)) (frame_size eng)) ;;
  end_frame <- lift (py_int_truediv (snd (affected_region edit)) (frame_size eng)) ;;
  let changed := changed_frames start_frame end_frame in
  let affected_frames := get_affected_nodes (dependency_graph eng) changed in
  cache_invalidate (elements affected_frames) ;;;
  recompute_frames (py_sorted (elements affected_frames)) ;;;
  end_time <- time_now ;;
  let elapsed := end_time - start_time in
  let n_affected := Z.of_nat (size affected_frames) in
  let baseline_time := (inject_Z n_affected * (1 # 10))%Q in
  let speedup := if elapsed >? 0 then (baseline_time / inject_Z elapsed)%Q else 1%Q in
  eng' <- get_engine ;;
  if current_length_frames eng' =? 0 then throw ZeroDivisionError else
  stats <- lift (get_stats (cache eng')) ;;
  ret (mkMetrics (elapsed * 1000) n_affected (current_length_frames eng')
         (inject_Z n_affected / inject_Z (current_length_frames eng'))%Q speedup stats).

End Sparse.


(** ** Invariant and scenarios used by the proofs *)

Module Scenarios.
Import DepGraph TCache Sparse.

(** Invariant of the [while queue:] loop. *)
Definition bfs_inv (g : DependencyGraph) (C : gset string) (aff : gset string) (q vis : list string) : Prop :=
  NoDup (vis ++ q) /\
  (forall x, x ∈ aff <-> x ∈ vis \/ x ∈ q) /\
  C ⊆ aff /\
  aff ⊆ C ∪ all_dependents g /\
  (forall x, x ∈ aff -> downstream g C x) /\
  (forall x y, x ∈ vis -> y ∈ get_dependents g x -> y ∈ aff).

(** Capacity accounting of a cache: the running total bounds the stored
    bytes from above and is itself within capacity. *)
Definition cache_inv (s : TCache.TemporalCache) : Prop :=
  0 <= max_size_bytes s /\
  Forall (fun kv => 0 <= size_bytes (snd kv)) (TCache.cache s) /\
  stored_bytes s <= current_size_bytes s /\
  current_size_bytes s <= max_size_bytes s.

(** A 1 MB LRU cache holding two 4-byte entries, [a] (older) then [b]. *)
Definition demo_cache : TCache.TemporalCache :=
  mkCache 1048576 "lru"
    [("a", mkEntry 0 (mkTensor 4 1) ∅ 0 4); ("b", mkEntry 1 (mkTensor 4 1) ∅ 0 4)]
    8 0 0 0.

(** The graph [generate_full] builds for [n] frames:
    [frame_i -> frame_(i-1)] for [i = 1 .. n-1]. *)
Definition linear_chain (n : Z) : DependencyGraph :=
  fold_left (fun g i => add_dependency (frame_key i) (frame_key (i - 1)) g)
    (py_range 1 n) empty_graph.

(** Engine fields that [apply_edit] and its helpers never change. *)
Definition frozen (e e' : Engine) : Prop :=
  frame_size e' = frame_size e /\ dependency_graph e' = dependency_graph e /\
  current_audio e' = current_audio e /\
  current_length_frames e' = current_length_frames e.

(** The same, and the recompute log is unchanged too. *)
Definition frozen_log (e e' : Engine) : Prop :=
  frozen e e' /\ recompute_log e' = recompute_log e.

(** Every run of [m] that returns relates its start and end states by [R]. *)
Definition preserves {A} (R : Engine -> Engine -> Prop) (m : M A) : Prop :=
  forall e e' r, m e = Some (e', r) -> R e e'.

(** An edit over the sample range [(a, b)]. *)
Definition edit_at (a b : Z) : EditOperation := mkEdit "edit" "regenerate" 0 0 (a, b).

(** [SparseInferenceEngine(model, cache_size_mb=1000, frame_size=512)] *)
Definition fresh_engine : Engine := new_engine 1000 512.

(** [generate_full("prompt", duration, 44100)] on [fresh_engine]. *)
Definition generated (duration : Q) : option (Engine * Result Z) :=
  generate_full "prompt" duration 44100 fresh_engine.

(** [s] starts with a decimal digit. *)
Definition starts_digit (s : string) : Prop :=
  exists m s', s = String (ascii_of_nat (48 + m)) s' /\ (m < 10)%nat.

End Scenarios.

(** ** Reports: [DependencyGraph.visualize] and
    [SparseInferenceEngine.get_performance_report] *)

Module Views.
Import DepGraph TCache Sparse.

Definition nl : string := String (ascii_of_nat 10) EmptyString.
Definition dq : string := String (ascii_of_nat 34) EmptyString.

(** [f'  "{dep}" -> "{node}";\n'] *)
Definition edge_line (dep node : string) : string :=
  ("  " ++ dq ++ dep ++ dq ++ " -> " ++ dq ++ node ++ dq ++ ";" ++ nl)%string.

(** The lines of [for node, deps in self.graph.items(): for dep in deps:],
    in the map's iteration order (Python iterates the dict in insertion
    order and each set in hash order; the theorems below speak only of
    which lines occur and how many). *)
Definition visualize_lines (g : DependencyGraph) : list string :=
  flat_map (fun nd => map (fun dep => edge_line dep nd.1) (elements nd.2))
    (map_to_list (graph g)).

(** [visualize()]: [dot += ...] for each line, then [dot += "}\n"]. *)
Definition visualize (g : DependencyGraph) : string :=
  (fold_left append (visualize_lines g) ("digraph DependencyGraph {" ++ nl) ++ "}" ++ nl)%string.


(** [sum(len(deps) for deps in self.dependency_graph.graph.values())] *)
Definition graph_edges (g : DependencyGraph) : Z :=
  Z.of_nat (sum_list_with (fun nd => size nd.2) (map_to_list (graph g))).





End Views.

(** ** The production caller ([musicgen_integration_production.py]) *)

Module Integration.
Import TCache.

(** The fields of [MusicGenConfig] the cache code reads. *)
Record MusicGenConfig := mkConfig { cache_size_mb : Z; sample_rate : Z }.

(** [MusicGenIntegration], seen through [config] and [self.cache]. *)
Record MusicGenIntegration := mkIntegration {
  config : MusicGenConfig;
  int_cache : option TemporalCache
}.

(** Python's binding of keyword arguments: a keyword that names no
    parameter of the callee raises [TypeError] before its body runs. *)
Definition py_bind_kwargs (params kwargs : list string) : Result unit :=
  if forallb (fun k => existsb (String.eqb k) params) kwargs then Ok tt else Raise TypeError.

(** [enable_temporal_cache()]: [TemporalCache(max_size_mb=...,
    sample_rate=...)] against [__init__(self, max_size_mb, eviction_policy)];
    an exception is caught and [False] returned. *)
Definition enable_temporal_cache (self : MusicGenIntegration) : MusicGenIntegration * bool :=
  match py_bind_kwargs ["max_size_mb"; "eviction_policy"] ["max_size_mb"; "sample_rate"] with
  | Ok _ =>
      (mkIntegration (config self)
         (Some (init (inject_Z (cache_size_mb (config self))) "lru")), true)
  | Raise _ => (self, false)
  end.

End Integration.

(** ** More scenarios *)

Module Scenarios2.
Import DepGraph TCache Sparse Scenarios.

(** The cache of [e] evicts under one of the two policies [_evict_one] knows. *)
Definition known_policy (e : Engine) : Prop :=
  eviction_policy (cache e) = "lru" \/ eviction_policy (cache e) = "lfu".

(** The graph update of one iteration [i] of the loop of [generate_full]. *)
Definition gen_step (g : DependencyGraph) (i : Z) : DependencyGraph :=
  if i >? 0 then add_dependency (frame_key i) (frame_key (i - 1)) g else g.

(** An engine holding a 3-frame buffer of 1536 samples with its chain
    graph, and an empty 1 MB LRU cache. *)
Definition chain_engine : Engine :=
  mkEngine 512 (linear_chain 3) (TCache.init 1 "lru") (Some 1536) 3 0 [].

(** A client run on a cache: [put("a", x)] for a float32 tensor [x] of [n]
    elements, then [get("a")] and [get("b")]. *)
Definition stats_ops (n : N) : list CacheOp :=
  [OpPut "a" (mkTensor 4 n) ∅ 0; OpGet "a" 1; OpGet "b" 2].

(** The state after the run [stats_ops n] on [TemporalCache(max_size_mb, "lru")]. *)
Definition stats_state (max_size_mb : Q) (n : N) : TemporalCache :=
  List.last (run_ops (stats_ops n) (init max_size_mb "lru")) (init max_size_mb "lru").

End Scenarios2.

(** * Proofs *)

(** ** Breadth-first closure of [get_affected_nodes] *)

Module DepGraphFacts.
Import DepGraph Scenarios.

Lemma visit_fold (ds : list string) (aff : gset string) (q : list string) :
  exists aff' new,
    fold_left visit ds (aff, q) = (aff', q ++ new) /\ NoDup new /\
    (forall y, y ∈ aff' <-> y ∈ aff \/ y ∈ new) /\
    (forall y, y ∈ new -> y ∈ ds /\ y ∉ aff) /\
    (forall y, y ∈ ds -> y ∈ aff').
Proof.
  revert aff q. induction ds as [|d ds IH]; intros aff q; simpl.
  - exists aff, []. rewrite app_nil_r. split; [done|]. split; [constructor|].
    set_solver.
  - case_decide as Hd.
    + destruct (IH aff q) as (aff' & new & Heq & Hnd & Hmem & Hnew & Hds).
      exists aff', new. split; [done|]. split; [done|].
      split; [done|]. split; [set_solver|].
      intros y Hy. apply elem_of_cons in Hy as [->|Hy]; [set_solver | auto].
    + destruct (IH ({[d]} ∪ aff) (q ++ [d]))
        as (aff' & new & Heq & Hnd & Hmem & Hnew & Hds).
      exists aff', (d :: new). rewrite Heq, <- app_assoc. split; [done|].
      split.
      { constructor; [|done]. intros Hin. apply Hnew in Hin. set_solver. }
      split; [set_solver|]. split.
      * intros y Hy. apply elem_of_cons in Hy as [->|Hy]; [set_solver|].
        apply Hnew in Hy. set_solver.
      * intros y Hy. apply elem_of_cons in Hy as [->|Hy]; [set_solver | auto].
Qed.

Lemma dependents_sub (g : DependencyGraph) (x : string) :
  get_dependents g x ⊆ all_dependents g.
Proof.
  unfold get_dependents, all_dependents.
  destruct (reverse_graph g !! x) as [s|] eqn:E; simpl; [|set_solver].
  intros y Hy. apply elem_of_union_list. exists s. split; [|done].
  apply list_elem_of_fmap. exists (x, s). split; [done|].
  by apply elem_of_map_to_list.
Qed.

Section BFS.
Variable g : DependencyGraph.
Variable C : gset string.

Lemma bfs_inv_init : bfs_inv g C C (elements C) [].
Proof.
  split; [apply NoDup_elements|]. split.
  { intros x. rewrite elem_of_elements. set_solver. }
  split; [set_solver|]. split; [set_solver|]. split.
  - intros x Hx. by apply down_changed.
  - intros x y Hx. set_solver.
Qed.

Lemma bfs_inv_step aff node q vis aff' q'' :
  bfs_inv g C aff (node :: q) vis ->
  fold_left visit (elements (get_dependents g node)) (aff, q) = (aff', q'') ->
  bfs_inv g C aff' q'' (vis ++ [node]).
Proof.
  intros (Hnd & Hmem & HC & HU & Hdown & Hcl) Hfold.
  destruct (visit_fold (elements (get_dependents g node)) aff q)
    as (a1 & new & Heq & Hndn & Hmem1 & Hnew & Hds).
  rewrite Hfold in Heq. injection Heq as -> ->.
  assert (Hnode : node ∈ aff) by (apply Hmem; right; left).
  split.
  { replace ((vis ++ [node]) ++ q ++ new) with ((vis ++ node :: q) ++ new)
      by (rewrite <- !app_assoc; reflexivity).
    apply NoDup_app. split; [done|]. split; [|done].
    intros x Hx Hxn. apply Hnew in Hxn as [_ Hxn]. apply Hxn, Hmem.
    apply elem_of_app in Hx as [Hx|Hx]; [by left | right; done]. }
  split.
  { intros x. rewrite Hmem1, Hmem. rewrite !elem_of_app, elem_of_cons.
    rewrite list_elem_of_singleton. tauto. }
  split; [set_solver|]. split.
  { intros x Hx. apply Hmem1 in Hx as [Hx|Hx]; [by apply HU|].
    apply Hnew in Hx as [Hx _]. rewrite elem_of_elements in Hx.
    apply dependents_sub in Hx. set_solver. }
  split.
  { intros x Hx. apply Hmem1 in Hx as [Hx|Hx]; [by apply Hdown|].
    apply Hnew in Hx as [Hx _]. rewrite elem_of_elements in Hx.
    eapply down_dependent; [|exact Hx]. by apply Hdown. }
  intros x y Hx Hy. apply elem_of_app in Hx as [Hx|Hx].
  - apply Hmem1. left. eauto.
  - apply list_elem_of_singleton in Hx as ->. apply Hds.
    by apply elem_of_elements.
Qed.

Lemma nodup_length_le (l : list string) (X : gset string) :
  NoDup l -> (forall x, x ∈ l -> x ∈ X) -> (length l <= size X)%nat.
Proof.
  intros Hnd Hsub. rewrite <- (size_list_to_set (C:=gset string)) by done.
  apply subseteq_size. intros x. rewrite elem_of_list_to_set. auto.
Qed.

Lemma bfs_loop_fuel (f : nat) aff q vis :
  bfs_inv g C aff q vis -> bfs_loop g f aff q vis = None ->
  (length vis + f + 1 <= size (C ∪ all_dependents g))%nat.
Proof.
  revert aff q vis. induction f as [|f IH]; intros aff q vis Hinv Hrun.
  - destruct q as [|node q]; simpl in Hrun; [discriminate|].
    destruct Hinv as (Hnd & Hmem & _ & HU & _).
    pose proof (nodup_length_le (vis ++ node :: q) (C ∪ all_dependents g) Hnd)
      as Hle.
    rewrite length_app in Hle. simpl in Hle.
    assert (length vis + S (length q) <= size (C ∪ all_dependents g))%nat;
      [|lia].
    apply Hle. intros x Hx. apply HU, Hmem. by apply elem_of_app.
  - destruct q as [|node q]; simpl in Hrun; [discriminate|].
    destruct (fold_left visit (elements (get_dependents g node)) (aff, q))
      as [aff' q''] eqn:E.
    pose proof (IH _ _ _ (bfs_inv_step _ _ _ _ _ _ Hinv E) Hrun) as Hle.
    rewrite length_app in Hle. simpl in Hle. lia.
Qed.

Lemma bfs_loop_inv (f : nat) aff q vis res :
  bfs_inv g C aff q vis -> bfs_loop g f aff q vis = Some res ->
  bfs_inv g C (fst res) [] (snd res).
Proof.
  revert aff q vis. induction f as [|f IH]; intros aff q vis Hinv Hrun.
  - destruct q; simpl in Hrun; [|discriminate]. by injection Hrun as <-.
  - destruct q as [|node q]; simpl in Hrun; [by injection Hrun as <-|].
    destruct (fold_left visit (elements (get_dependents g node)) (aff, q))
      as [aff' q''] eqn:E.
    exact (IH _ _ _ (bfs_inv_step _ _ _ _ _ _ Hinv E) Hrun).
Qed.

End BFS.

(** The loop always finishes within [bfs_fuel] iterations. *)
Lemma get_affected_nodes_run_some (g : DependencyGraph) (C : gset string) :
  exists aff vis, get_affected_nodes_run g C = Some (aff, vis).
Proof.
  unfold get_affected_nodes_run.
  destruct (bfs_loop g (bfs_fuel g C) C (elements C) []) as [[aff vis]|] eqn:E.
  - eauto.
  - apply (bfs_loop_fuel g C) in E; [|apply bfs_inv_init].
    unfold bfs_fuel in E. simpl in E. lia.
Qed.

(** [get_affected_nodes] is the downstream closure, and the loop pops
    every node of it exactly once. *)
Lemma get_affected_nodes_spec (g : DependencyGraph) (C : gset string) :
  (forall x, x ∈ get_affected_nodes g C <-> downstream g C x) /\
  exists vis, get_affected_nodes_run g C = Some (get_affected_nodes g C, vis) /\
    NoDup vis /\ (forall x, x ∈ vis <-> x ∈ get_affected_nodes g C).
Proof.
  destruct (get_affected_nodes_run_some g C) as (aff & vis & Hrun).
  unfold get_affected_nodes. rewrite Hrun.
  pose proof (bfs_loop_inv g C _ _ _ _ _ (bfs_inv_init g C) Hrun)
    as (Hnd & Hmem & HC & _ & Hdown & Hcl). simpl in *.
  rewrite app_nil_r in Hnd. split.
  - intros x. split; [apply Hdown|]. intros Hx. induction Hx as [x Hx|x y _ IH Hy].
    + by apply HC.
    + apply (Hcl x y); [|done]. apply Hmem in IH as [IH|IH]; [done|].
      by apply elem_of_nil in IH.
  - exists vis. split; [done|]. split; [done|].
    intros x. rewrite Hmem. split; [by left|]. intros [H|H]; [done|].
    by apply elem_of_nil in H.
Qed.

End DepGraphFacts.

(** ** Claims about [get_affected_nodes] *)

Module GraphClaims.
Import DepGraph Scenarios DepGraphFacts.

(** C2: for every graph and every set [changed], [get_affected_nodes]
    returns exactly [changed] together with every node reachable from it
    through the dependents relation; its loop pops each node at most once;
    on the chain [frame_i -> frame_(i-1)], [i = 1..9], the closure of
    [{frame_3}] is [{frame_3, ..., frame_9}] and that of [{frame_9}] is
    [{frame_9}]; and the result is [changed] when no member of [changed]
    has dependents. *)
Theorem get_affected_nodes_closure :
  (forall (g : DependencyGraph) (C : gset string),
     (forall x, x ∈ get_affected_nodes g C <-> downstream g C x) /\
     (exists vis, get_affected_nodes_run g C = Some (get_affected_nodes g C, vis) /\
        NoDup vis /\ (forall x, x ∈ vis <-> x ∈ get_affected_nodes g C)) /\
     ((forall x, x ∈ C -> get_dependents g x = ∅) -> get_affected_nodes g C = C)) /\
  get_affected_nodes (linear_chain 10) {[frame_key 3]} =
    list_to_set (map frame_key (py_range 3 10)) /\
  get_affected_nodes (linear_chain 10) {[frame_key 9]} = {[frame_key 9]}.
Proof.
  split; [|split; vm_compute; reflexivity].
  intros g C. destruct (get_affected_nodes_spec g C) as [Hcl Hvis].
  split; [done|]. split; [done|].
  intros Hnone. apply set_eq. intros x. rewrite Hcl. split.
  - intros Hx. induction Hx as [x Hx|x y _ IH Hy]; [done|].
    rewrite (Hnone x IH) in Hy. set_solver.
  - intros Hx. by apply down_changed.
Qed.

Lemma get_affected_nodes_closure_witness :
  (forall x, x ∈ ({[frame_key 9]} : gset string) ->
     get_dependents (linear_chain 10) x = ∅) /\
  get_affected_nodes (linear_chain 10) {[frame_key 9]} = {[frame_key 9]}.
Proof.
  assert (H : forall x, x ∈ ({[frame_key 9]} : gset string) ->
                get_dependents (linear_chain 10) x = ∅).
  { intros x Hx. apply elem_of_singleton in Hx as ->. vm_compute. reflexivity. }
  split; [exact H|].
  exact (proj2 (proj2 (proj1 get_affected_nodes_closure (linear_chain 10) _)) H).
Defined.

End GraphClaims.

(** ** Dictionary and eviction facts *)

Module CacheFacts.
Import TCache Scenarios.

Section Dict.
Context {V : Type}.

Lemma dict_get_in (k : string) (v : V) (d : list (string * V)) :
  dict_get k d = Some v -> In (k, v) d.
Proof.
  induction d as [|[k' v'] d IH]; simpl; [discriminate|].
  destruct (String.eqb_spec k k') as [->|]; [intros [= ->]; by left|].
  intros H; right; auto.
Qed.

Lemma dict_get_some (k : string) (v : V) (d : list (string * V)) :
  In (k, v) d -> exists v', dict_get k d = Some v'.
Proof.
  induction d as [|[k' v'] d IH]; simpl; [done|].
  destruct (String.eqb_spec k k') as [->|Hne]; [eauto|].
  intros [[= -> ->]|H]; [done | auto].
Qed.

Lemma dict_get_nodup (k : string) (v : V) (d : list (string * V)) :
  NoDup (map fst d) -> In (k, v) d -> dict_get k d = Some v.
Proof.
  induction d as [|[k' v'] d IH]; simpl; [done|].
  intros Hnd. inversion Hnd as [|? ? Hnotin Hnd']; subst.
  destruct (String.eqb_spec k k') as [->|Hne].
  - intros [[= ->]|H]; [done|]. exfalso. apply Hnotin.
    apply list_elem_of_In, in_map_iff. exists (k', v). auto.
  - intros [[= -> ->]|H]; [done | auto].
Qed.

Lemma dict_del_length (k : string) (v : V) (d : list (string * V)) :
  dict_get k d = Some v -> length (dict_del k d) = pred (length d).
Proof.
  induction d as [|[k' v'] d IH]; simpl; [discriminate|].
  destruct (String.eqb k k'); [done|].
  intros H. simpl. rewrite (IH H). destruct d; simpl in *; [discriminate | lia].
Qed.

Lemma dict_del_in (k k' : string) (v' : V) (d : list (string * V)) :
  In (k', v') (dict_del k d) -> In (k', v') d.
Proof.
  induction d as [|[k0 v0] d IH]; simpl; [done|].
  destruct (String.eqb k k0); [auto|]. simpl. intros [H|H]; auto.
Qed.

Lemma dict_set_in (k k' : string) (v v' : V) (d : list (string * V)) :
  In (k', v') (dict_set k v d) -> (k' = k /\ v' = v) \/ In (k', v') d.
Proof.
  induction d as [|[k0 v0] d IH]; simpl.
  - intros [[= -> ->]|[]]; auto.
  - destruct (String.eqb_spec k k0) as [->|]; simpl.
    + intros [[= -> ->]|H]; auto.
    + intros [[= -> ->]|H]; [auto|]. destruct (IH H) as [?|?]; auto.
Qed.

Lemma dict_get_set_eq (k : string) (v : V) (d : list (string * V)) :
  dict_get k (dict_set k v d) = Some v.
Proof.
  induction d as [|[k0 v0] d IH]; simpl; [by rewrite String.eqb_refl|].
  destruct (String.eqb_spec k k0) as [->|Hne]; simpl.
  - by rewrite String.eqb_refl.
  - apply String.eqb_neq in Hne. by rewrite Hne.
Qed.

Lemma dict_set_keys (k : string) (v e : V) (d : list (string * V)) :
  dict_get k d = Some e -> map fst (dict_set k v d) = map fst d.
Proof.
  induction d as [|[k0 v0] d IH]; simpl; [discriminate|].
  destruct (String.eqb_spec k k0) as [->|]; simpl; [done|].
  intros H. by rewrite (IH H).
Qed.

Lemma argmin_from_in (f : V -> Z) (best : string * V) (rest : list (string * V)) :
  In (argmin_from f best rest) (best :: rest).
Proof.
  revert best. induction rest as [|[k v] rest IH]; intros best; simpl; [auto|].
  destruct (f v <? f (snd best)).
  - specialize (IH (k, v)). simpl in IH. tauto.
  - specialize (IH best). simpl in IH. tauto.
Qed.

Lemma argmin_from_le (f : V -> Z) (best : string * V) (rest : list (string * V)) :
  forall kv, In kv (best :: rest) -> f (snd (argmin_from f best rest)) <= f (snd kv).
Proof.
  revert best. induction rest as [|[k v] rest IH]; intros best kv Hin; simpl.
  - destruct Hin as [->|[]]. lia.
  - destruct (Z.ltb_spec (f v) (f (snd best))) as [Hlt|Hge].
    + destruct Hin as [H|Hin]; [subst kv|].
      * specialize (IH (k, v) (k, v) (or_introl eq_refl)). simpl in *. lia.
      * apply IH. exact Hin.
    + destruct Hin as [H|[H|Hin]]; [subst kv | subst kv |].
      * apply IH. by left.
      * specialize (IH best best (or_introl eq_refl)). simpl in *. lia.
      * apply IH. by right.
Qed.

End Dict.

Lemma entries_bytes_del (k : string) (e : CacheEntry) (d : list (string * CacheEntry)) :
  dict_get k d = Some e -> entries_bytes (dict_del k d) = entries_bytes d - size_bytes e.
Proof.
  induction d as [|[k0 v0] d IH]; simpl; [discriminate|].
  destruct (String.eqb k k0); [intros [= ->]; lia|].
  simpl. intros H. rewrite (IH H). lia.
Qed.

Lemma entries_bytes_set_some (k : string) (e v : CacheEntry) (d : list (string * CacheEntry)) :
  dict_get k d = Some e ->
  entries_bytes (dict_set k v d) = entries_bytes d - size_bytes e + size_bytes v.
Proof.
  induction d as [|[k0 v0] d IH]; simpl; [discriminate|].
  destruct (String.eqb_spec k k0) as [->|]; simpl; [intros [= ->]; lia|].
  intros H. rewrite (IH H). lia.
Qed.

Lemma entries_bytes_set_none (k : string) (v : CacheEntry) (d : list (string * CacheEntry)) :
  dict_get k d = None -> entries_bytes (dict_set k v d) = entries_bytes d + size_bytes v.
Proof.
  induction d as [|[k0 v0] d IH]; simpl; [lia|].
  destruct (String.eqb k k0); [discriminate|]. simpl.
  intros H. rewrite (IH H). lia.
Qed.

Lemma nonneg_del (k : string) (d : list (string * CacheEntry)) :
  Forall (fun kv => 0 <= size_bytes (snd kv)) d ->
  Forall (fun kv => 0 <= size_bytes (snd kv)) (dict_del k d).
Proof.
  rewrite !List.Forall_forall. intros H kv Hin. destruct kv as [k' v'].
  apply H. eapply dict_del_in. exact Hin.
Qed.

Lemma nonneg_set (k : string) (v : CacheEntry) (d : list (string * CacheEntry)) :
  0 <= size_bytes v ->
  Forall (fun kv => 0 <= size_bytes (snd kv)) d ->
  Forall (fun kv => 0 <= size_bytes (snd kv)) (dict_set k v d).
Proof.
  rewrite !List.Forall_forall. intros Hv H [k' v'] Hin.
  apply dict_set_in in Hin as [[-> ->]|Hin]; [done|]. by apply H.
Qed.

Lemma nonneg_get (k : string) (e : CacheEntry) (d : list (string * CacheEntry)) :
  Forall (fun kv => 0 <= size_bytes (snd kv)) d -> dict_get k d = Some e ->
  0 <= size_bytes e.
Proof.
  rewrite List.Forall_forall. intros H Hg. apply dict_get_in in Hg.
  exact (H _ Hg).
Qed.

(** [evict_by] on a non-empty cache removes the entry of the key [min]
    selects. *)
Lemma evict_by_spec (f : CacheEntry -> Z) (s : TemporalCache) kv rest :
  cache s = kv :: rest ->
  exists e,
    dict_get (fst (argmin_from f kv rest)) (cache s) = Some e /\
    evict_by f s =
      Ok (mkCache (max_size_bytes s) (eviction_policy s)
            (dict_del (fst (argmin_from f kv rest)) (cache s))
            (current_size_bytes s - size_bytes e) (hits s) (misses s) (evictions s + 1)).
Proof.
  intros Hc. pose proof (argmin_from_in f kv rest) as Hin. rewrite <- Hc in Hin.
  rewrite (surjective_pairing (argmin_from f kv rest)) in Hin.
  destruct (dict_get_some _ _ _ Hin) as [e He].
  exists e. split; [done|]. unfold evict_by, py_min_key. rewrite Hc at 1.
  simpl. rewrite He. reflexivity.
Qed.

Lemma evict_one_known (s : TemporalCache) kv rest :
  (eviction_policy s = "lru" \/ eviction_policy s = "lfu") ->
  cache s = kv :: rest ->
  exists k e,
    dict_get k (cache s) = Some e /\
    evict_one s =
      Ok (mkCache (max_size_bytes s) (eviction_policy s) (dict_del k (cache s))
            (current_size_bytes s - size_bytes e) (hits s) (misses s) (evictions s + 1)).
Proof.
  intros Hpol Hc. unfold evict_one.
  destruct Hpol as [Hp|Hp]; rewrite Hp; simpl.
  - destruct (evict_by_spec timestamp s kv rest Hc) as (e & He & Hev).
    rewrite Hev, Hp. eauto.
  - destruct (evict_by_spec hit_count s kv rest Hc) as (e & He & Hev).
    rewrite Hev, Hp. eauto.
Qed.

Lemma dict_set_keep {V} (k k' : string) (v v' : V) (d : list (string * V)) :
  In (k', v') d -> k' <> k -> In (k', v') (dict_set k v d).
Proof.
  induction d as [|[k0 v0] d IH]; simpl; [done|].
  destruct (String.eqb_spec k k0) as [->|]; simpl.
  - intros [[= -> ->]|H] Hne; [done | by right].
  - intros [H|H] Hne; [by left | right; auto].
Qed.

(** Under "lru", [_evict_one] removes an entry of least timestamp. *)
Lemma lru_evict_min (s : TemporalCache) :
  eviction_policy s = "lru" -> NoDup (map fst (cache s)) -> cache s <> [] ->
  exists k e,
    dict_get k (cache s) = Some e /\
    (forall k' e', In (k', e') (cache s) -> timestamp e <= timestamp e') /\
    evict_one s =
      Ok (mkCache (max_size_bytes s) (eviction_policy s) (dict_del k (cache s))
            (current_size_bytes s - size_bytes e) (hits s) (misses s) (evictions s + 1)).
Proof.
  intros Hp Hnd Hne.
  assert (exists kv rest, cache s = kv :: rest) as (kv & rest & Ec)
    by (destruct (cache s); [done | eauto]).
  destruct (evict_by_spec timestamp s kv rest Ec) as (e & He & Hev).
  exists (fst (argmin_from timestamp kv rest)), e. split; [done|]. split.
  - pose proof (argmin_from_in timestamp kv rest) as Hin.
    rewrite <- Ec in Hin. rewrite (surjective_pairing (argmin_from timestamp kv rest)) in Hin.
    pose proof (dict_get_nodup _ _ _ Hnd Hin) as He'. rewrite He in He'.
    injection He' as ->. intros k' e' Hk.
    rewrite Ec in Hk. exact (argmin_from_le timestamp kv rest (k', e') Hk).
  - unfold evict_one. rewrite Hp. simpl. rewrite Hev, Hp. done.
Qed.

End CacheFacts.

(** ** Eviction loop: termination and capacity accounting *)

Module PutFacts.
Import TCache Scenarios CacheFacts.

Lemma put_loop_total (sz : Z) (n : nat) (s : TemporalCache) :
  (eviction_policy s = "lru" \/ eviction_policy s = "lfu") ->
  (length (cache s) < n)%nat ->
  exists b s', put_loop n sz s = Some (Ok (b, s')) /\
    forall m, (length (cache s) < m)%nat -> put_loop m sz s = Some (Ok (b, s')).
Proof.
  revert s. induction n as [|n IH]; intros s Hp Hlt; [lia|].
  simpl. destruct (current_size_bytes s + sz >? max_size_bytes s) eqn:Ec.
  - destruct (cache s) as [|kv rest] eqn:Ecache.
    + exists false, s. split; [done|]. intros [|m] Hm; [lia|].
      simpl. by rewrite Ec, Ecache.
    + destruct (evict_one_known s kv rest Hp Ecache) as (k & e & Hg & Hev).
      rewrite Hev.
      assert (Hlen : length (dict_del k (cache s)) = pred (length (cache s)))
        by (eapply dict_del_length; exact Hg).
      assert (Hl : length (cache s) = S (length rest)) by (rewrite Ecache; done).
      destruct (IH (mkCache (max_size_bytes s) (eviction_policy s) (dict_del k (cache s))
                  (current_size_bytes s - size_bytes e) (hits s) (misses s)
                  (evictions s + 1)))
        as (b & s' & H1 & H2); simpl; [done | simpl in Hlt; lia |].
      exists b, s'. split; [done|]. intros [|m] Hm; [lia|].
      simpl. rewrite Ec, Ecache, Hev. apply H2. simpl. simpl in Hm. lia.
  - exists true, s. split; [done|]. intros [|m] Hm; [lia|]. simpl. by rewrite Ec.
Qed.

Lemma evict_one_unknown (s : TemporalCache) :
  eviction_policy s <> "lru" -> eviction_policy s <> "lfu" -> evict_one s = Ok s.
Proof.
  intros H1 H2. unfold evict_one.
  apply String.eqb_neq in H1, H2. by rewrite H1, H2.
Qed.

Lemma put_loop_diverges (sz : Z) (n : nat) (s : TemporalCache) :
  eviction_policy s <> "lru" -> eviction_policy s <> "lfu" -> cache s <> [] ->
  current_size_bytes s + sz > max_size_bytes s -> put_loop n sz s = None.
Proof.
  intros H1 H2 Hne Hgt. induction n as [|n IH]; [done|]. simpl.
  replace (current_size_bytes s + sz >? max_size_bytes s) with true by lia.
  destruct (cache s) eqn:Ec; [done|]. by rewrite evict_one_unknown.
Qed.

Lemma evict_by_inv (f : CacheEntry -> Z) (s s' : TemporalCache) :
  cache_inv s -> evict_by f s = Ok s' -> cache_inv s' /\ max_size_bytes s' = max_size_bytes s.
Proof.
  intros Hinv Hev. destruct (cache s) as [|kv rest] eqn:Ec.
  - unfold evict_by, py_min_key in Hev. rewrite Ec in Hev. discriminate.
  - destruct (evict_by_spec f s kv rest Ec) as (e & He & Hev').
    rewrite Hev' in Hev. injection Hev as <-.
    destruct Hinv as (Hm & Hnn & Hst & Hcur).
    pose proof (nonneg_get _ _ _ Hnn He) as He0.
    unfold cache_inv, stored_bytes in *. simpl.
    rewrite (entries_bytes_del _ _ _ He).
    split; [|done]. split; [done|]. split; [by apply nonneg_del|]. lia.
Qed.

Lemma evict_one_inv (s s' : TemporalCache) :
  cache_inv s -> evict_one s = Ok s' -> cache_inv s' /\ max_size_bytes s' = max_size_bytes s.
Proof.
  unfold evict_one. intros Hinv Hev.
  destruct (String.eqb (eviction_policy s) "lru"); [by eapply evict_by_inv|].
  destruct (String.eqb (eviction_policy s) "lfu"); [by eapply evict_by_inv|].
  by injection Hev as <-.
Qed.

Lemma put_loop_inv (sz : Z) (n : nat) (s : TemporalCache) b s' :
  cache_inv s -> put_loop n sz s = Some (Ok (b, s')) ->
  cache_inv s' /\ (b = true -> current_size_bytes s' + sz <= max_size_bytes s').
Proof.
  revert s. induction n as [|n IH]; intros s Hinv Hrun; [discriminate|].
  simpl in Hrun. destruct (current_size_bytes s + sz >? max_size_bytes s) eqn:Ec.
  - destruct (cache s); [injection Hrun as <- <-; split; [done | discriminate]|].
    destruct (evict_one s) as [s1|ex] eqn:Hev; [|discriminate].
    destruct (evict_one_inv s s1 Hinv Hev) as [Hinv1 _]. eauto.
  - injection Hrun as <- <-. split; [done|]. intros _. lia.
Qed.

Lemma put_inv (key : string) (act : Tensor) (deps : gset string) (now : Z) (s s' : TemporalCache) :
  cache_inv s -> put key act deps now s = Some (Ok s') -> cache_inv s'.
Proof.
  unfold put, put_fuel. intros Hinv Hput.
  destruct (put_loop (S (length (cache s))) (tensor_bytes act) s)
    as [[[[|] s1]|ex]|] eqn:E; try discriminate.
  - injection Hput as <-.
    destruct (put_loop_inv _ _ _ _ _ Hinv E) as [(Hm & Hnn & Hst & Hcur) Hfit].
    specialize (Hfit eq_refl).
    assert (Hsz : 0 <= tensor_bytes act) by (unfold tensor_bytes; lia).
    unfold cache_inv, stored_bytes in *. simpl.
    split; [done|]. split; [by apply nonneg_set|].
    destruct (dict_get key (cache s1)) as [e0|] eqn:Eg.
    + rewrite (entries_bytes_set_some _ _ _ _ Eg). simpl.
      pose proof (nonneg_get _ _ _ Hnn Eg). lia.
    + rewrite (entries_bytes_set_none _ _ _ Eg). simpl. lia.
  - injection Hput as <-. exact (proj1 (put_loop_inv _ _ _ _ _ Hinv E)).
Qed.

Lemma get_inv (key : string) (now : Z) (s : TemporalCache) :
  cache_inv s -> cache_inv (fst (get key now s)).
Proof.
  unfold get. intros (Hm & Hnn & Hst & Hcur).
  destruct (dict_get key (cache s)) as [e|] eqn:Eg; [|done].
  unfold cache_inv, stored_bytes in *. simpl.
  rewrite (entries_bytes_set_some _ _ _ _ Eg). simpl.
  pose proof (nonneg_get _ _ _ Hnn Eg).
  split; [done|]. split; [apply nonneg_set; [done|done]|]. lia.
Qed.

Lemma invalidate_inv (keys : list string) (s : TemporalCache) :
  cache_inv s -> cache_inv (invalidate keys s).
Proof.
  unfold invalidate. revert s. induction keys as [|k keys IH]; intros s Hinv; [done|].
  simpl. apply IH. unfold invalidate_one.
  destruct (dict_get k (cache s)) as [e|] eqn:Eg; [|done].
  destruct Hinv as (Hm & Hnn & Hst & Hcur).
  pose proof (nonneg_get _ _ _ Hnn Eg).
  unfold cache_inv, stored_bytes in *. simpl.
  rewrite (entries_bytes_del _ _ _ Eg).
  split; [done|]. split; [by apply nonneg_del|]. lia.
Qed.

Lemma exec_op_inv (op : CacheOp) (s s' : TemporalCache) :
  cache_inv s -> exec_op op s = Some (Ok s') -> cache_inv s'.
Proof.
  intros Hinv. destruct op as [k a d t|k t|ks|]; simpl.
  - by apply put_inv.
  - intros [= <-]. by apply get_inv.
  - intros [= <-]. by apply invalidate_inv.
  - intros [= <-]. destruct Hinv as (Hm & _ & _ & _).
    unfold cache_inv, stored_bytes. simpl. repeat split; [done | constructor | lia | lia].
Qed.

Lemma run_ops_inv (ops : list CacheOp) (s : TemporalCache) :
  cache_inv s -> Forall cache_inv (run_ops ops s).
Proof.
  revert s. induction ops as [|op ops IH]; intros s Hinv; simpl; [constructor|].
  destruct (exec_op op s) as [[s'|ex]|] eqn:E; try constructor.
  - exact (exec_op_inv _ _ _ Hinv E).
  - apply IH. exact (exec_op_inv _ _ _ Hinv E).
Qed.

Lemma init_inv (max_size_mb : Q) (policy : string) :
  (0 <= max_size_mb)%Q -> cache_inv (init max_size_mb policy).
Proof.
  intros H. unfold Qle in H. simpl in H.
  unfold cache_inv, stored_bytes. simpl. repeat split; [| constructor | lia |].
  - apply Z.quot_pos; lia.
  - apply Z.quot_pos; lia.
Qed.

End PutFacts.

(** ** Claims about [TemporalCache] *)

Module CacheClaims.
Import TCache Scenarios CacheFacts PutFacts.

(** C6 (amended): for a cache built with a non-negative [max_size_mb],
    after each completed operation of any sequence of [put], [get],
    [invalidate] and [clear] calls (with the evictions they trigger), the
    stored entries' [size_bytes] sum to at most [max_size_bytes]. *)
Theorem capacity_invariant_nonneg (max_size_mb : Q) (policy : string) (ops : list CacheOp) :
  (0 <= max_size_mb)%Q ->
  Forall (fun s => stored_bytes s <= max_size_bytes s) (run_ops ops (init max_size_mb policy)).
Proof.
  intros H. pose proof (run_ops_inv ops _ (init_inv max_size_mb policy H)) as Hall.
  eapply Forall_impl; [exact Hall|]. intros s (_ & _ & Hst & Hcur). lia.
Qed.

Lemma capacity_invariant_nonneg_witness :
  (0 <= 1)%Q /\
  Forall (fun s => stored_bytes s <= max_size_bytes s)
    (run_ops [OpPut "a" (mkTensor 4 300000) ∅ 0; OpPut "b" (mkTensor 4 300000) ∅ 1]
       (init 1 "lru")).
Proof.
  assert (H : (0 <= 1)%Q) by (vm_compute; discriminate).
  split; [exact H|]. apply (capacity_invariant_nonneg 1 "lru"). exact H.
Defined.

(** C6 counterexample: with [max_size_mb = -1] the cache is empty yet its
    stored bytes (0) exceed [max_size_bytes] (-1048576) after [clear()]. *)
Lemma capacity_invariant_counterexample :
  ~ (forall (max_size_mb : Q) (policy : string) (ops : list CacheOp),
       Forall (fun s => stored_bytes s <= max_size_bytes s)
         (run_ops ops (init max_size_mb policy))).
Proof.
  intros H. specialize (H (-1)%Q "lru" [OpClear]).
  apply Forall_inv in H. vm_compute in H. by apply H.
Qed.

(** C7 (code defect): a [put] on a key that is already stored adds the new
    size to [current_size_bytes] without subtracting the replaced entry's
    size: two 4-byte puts on ["k"] leave one 4-byte entry and a running
    total of 8. *)
Lemma put_replace_total_drift :
  match put "k" (mkTensor 4 1) ∅ 0 (init 1 "lru") with
  | Some (Ok s1) =>
      match put "k" (mkTensor 4 1) ∅ 1 s1 with
      | Some (Ok s2) =>
          length (cache s2) = 1%nat /\ stored_bytes s2 = 4 /\ current_size_bytes s2 = 8
      | _ => False
      end
  | _ => False
  end.
Proof. vm_compute. repeat split. Qed.

(** C8: under "lru", the entry [_evict_one] removes has the least
    timestamp of the stored entries; [get] on a stored key sets its
    timestamp to the current reading, which is then the largest stored
    timestamp when the clock has not gone back; and when that reading is
    later than every stored timestamp, the next eviction removes a
    different entry (if there is one). *)
Theorem lru_eviction_order :
  (forall s : TemporalCache,
     eviction_policy s = "lru" -> NoDup (map fst (cache s)) -> cache s <> [] ->
     exists k e,
       dict_get k (cache s) = Some e /\
       (forall k' e', In (k', e') (cache s) -> timestamp e <= timestamp e') /\
       evict_one s =
         Ok (mkCache (max_size_bytes s) (eviction_policy s) (dict_del k (cache s))
               (current_size_bytes s - size_bytes e) (hits s) (misses s) (evictions s + 1))) /\
  (forall (s : TemporalCache) (key : string) (now : Z) (e : CacheEntry),
     dict_get key (cache s) = Some e ->
     (forall k' e', In (k', e') (cache s) -> timestamp e' <= now) ->
     (exists e', dict_get key (cache (fst (get key now s))) = Some e' /\ timestamp e' = now) /\
     (forall k' e', In (k', e') (cache (fst (get key now s))) -> timestamp e' <= now)) /\
  (forall (s : TemporalCache) (key : string) (now : Z) (e : CacheEntry),
     eviction_policy s = "lru" -> NoDup (map fst (cache s)) ->
     dict_get key (cache s) = Some e ->
     (forall k' e', In (k', e') (cache s) -> timestamp e' < now) ->
     (2 <= length (cache s))%nat ->
     exists k s', evict_one (fst (get key now s)) = Ok s' /\ k <> key /\
       cache s' = dict_del k (cache (fst (get key now s)))).
Proof.
  split; [exact lru_evict_min|].
  assert (Hget : forall (s : TemporalCache) key now e,
            dict_get key (cache s) = Some e ->
            cache (fst (get key now s)) =
              dict_set key (mkEntry now (activations e) (dependencies e)
                              (hit_count e + 1) (size_bytes e)) (cache s) /\
            eviction_policy (fst (get key now s)) = eviction_policy s).
  { intros s key now e He. unfold get. rewrite He. done. }
  split.
  - intros s key now e He Hle. destruct (Hget s key now e He) as [Hc _].
    rewrite Hc. split.
    + eexists. split; [apply dict_get_set_eq | done].
    + intros k' e' Hin. apply dict_set_in in Hin as [[-> ->]|Hin]; [simpl; lia|].
      exact (Hle _ _ Hin).
  - intros s key now e Hp Hnd He Hlt Hlen.
    destruct (Hget s key now e He) as [Hc Hp'].
    set (s' := fst (get key now s)) in *.
    assert (Hnd' : NoDup (map fst (cache s'))) by (rewrite Hc, (dict_set_keys _ _ _ _ He); done).
    assert (Hne : cache s' <> []).
    { rewrite Hc. destruct (cache s); simpl; [done|]. destruct p. by destruct String.eqb. }
    destruct (lru_evict_min s' ltac:(congruence) Hnd' Hne) as (k & e2 & Hg2 & Hmin & Hev).
    exists k. eexists. split; [exact Hev|]. split; [|done].
    intros ->.
    (* another entry, with a different key, survives in [s'] *)
    assert (exists k2 e3, In (k2, e3) (cache s) /\ k2 <> key) as (k2 & e3 & Hin3 & Hk2).
    { destruct (cache s) as [|[ka va] [|[kb vb] rest]] eqn:Ec; simpl in Hlen; [lia|lia|].
      simpl in Hnd. apply NoDup_cons in Hnd as [Hnab _].
      destruct (String.eqb_spec ka key) as [->|Hka].
      - exists kb, vb. split; [simpl; auto|]. intros ->. apply Hnab; simpl; set_solver.
      - exists ka, va. split; [simpl; auto | done]. }
    assert (Hin3' : In (k2, e3) (cache s')) by (rewrite Hc; by apply dict_set_keep).
    rewrite Hc, dict_get_set_eq in Hg2. injection Hg2 as <-.
    specialize (Hmin _ _ Hin3'). specialize (Hlt _ _ Hin3). simpl in Hmin. lia.
Qed.

Lemma lru_eviction_order_witness :
  exists k s', evict_one (fst (get "a" 2 demo_cache)) = Ok s' /\ k <> "a"%string /\
    cache s' = dict_del k (cache (fst (get "a" 2 demo_cache))).
Proof.
  apply (proj2 (proj2 lru_eviction_order) demo_cache "a" 2
           (mkEntry 0 (mkTensor 4 1) ∅ 0 4)).
  - reflexivity.
  - apply (bool_decide_unpack _). vm_compute. reflexivity.
  - reflexivity.
  - intros k' e' Hin. simpl in Hin.
    destruct Hin as [[= <- <-]|[[= <- <-]|[]]]; simpl; lia.
  - simpl. lia.
Defined.

(** C9 (code defect, same as C7): an empty cache can carry a non-zero
    running total.  After two 4-byte puts on ["k"] and [invalidate({"k"})]
    the cache is empty with [current_size_bytes = 4]; a put of a buffer
    larger than [max_size_bytes] then raises nothing and stores nothing,
    but [current_size_bytes] stays 4. *)
Lemma put_too_large_on_drifted_empty_cache :
  match put "k" (mkTensor 4 1) ∅ 0 (init 1 "lru") with
  | Some (Ok s1) =>
      match put "k" (mkTensor 4 1) ∅ 1 s1 with
      | Some (Ok s2) =>
          let s3 := invalidate ["k"%string] s2 in
          cache s3 = [] /\
          match put "big" (mkTensor 4 300000) ∅ 2 s3 with
          | Some (Ok s4) => cache s4 = [] /\ current_size_bytes s4 = 4
          | _ => False
          end
      | _ => False
      end
  | _ => False
  end.
Proof. vm_compute. repeat split. Qed.

(** C10: under "lru" and "lfu" every [put] terminates: with more loop
    iterations than stored entries it returns, and more fuel changes
    nothing; each eviction removes exactly one entry and lowers
    [current_size_bytes] by that entry's (non-negative) size.  Under any
    other policy, a [put] that needs eviction on a non-empty cache never
    leaves its loop. *)
Theorem put_termination :
  (forall (s : TemporalCache) (key : string) (act : Tensor) (deps : gset string) (now : Z),
     (eviction_policy s = "lru" \/ eviction_policy s = "lfu") ->
     exists r, forall fuel, (length (cache s) < fuel)%nat ->
       put_fuel fuel key act deps now s = Some (Ok r)) /\
  (forall (s : TemporalCache) kv rest,
     (eviction_policy s = "lru" \/ eviction_policy s = "lfu") ->
     cache s = kv :: rest ->
     Forall (fun kv => 0 <= size_bytes (snd kv)) (cache s) ->
     exists k e s',
       evict_one s = Ok s' /\ dict_get k (cache s) = Some e /\
       cache s' = dict_del k (cache s) /\
       length (cache s') = length rest /\
       current_size_bytes s' = current_size_bytes s - size_bytes e /\
       0 <= size_bytes e) /\
  (forall (s : TemporalCache) (key : string) (act : Tensor) (deps : gset string) (now : Z),
     eviction_policy s <> "lru" -> eviction_policy s <> "lfu" -> cache s <> [] ->
     current_size_bytes s + tensor_bytes act > max_size_bytes s ->
     forall fuel, put_fuel fuel key act deps now s = None).
Proof.
  split; [|split].
  - intros s key act deps now Hp.
    destruct (put_loop_total (tensor_bytes act) (S (length (cache s))) s Hp ltac:(lia))
      as (b & s' & _ & Hall).
    unfold put_fuel. destruct b; eexists; intros fuel Hf; rewrite (Hall fuel Hf); reflexivity.
  - intros s kv rest Hp Hc Hnn.
    destruct (evict_one_known s kv rest Hp Hc) as (k & e & Hg & Hev).
    do 3 eexists. split; [exact Hev|]. split; [exact Hg|]. simpl.
    split; [done|]. split.
    + rewrite (dict_del_length _ _ _ Hg), Hc. done.
    + split; [done|]. exact (nonneg_get _ _ _ Hnn Hg).
  - intros s key act deps now H1 H2 Hne Hgt fuel.
    unfold put_fuel. by rewrite put_loop_diverges.
Qed.

Lemma put_termination_witness :
  (exists r, forall fuel, (length (cache demo_cache) < fuel)%nat ->
     put_fuel fuel "c" (mkTensor 4 300000) ∅ 2 demo_cache = Some (Ok r)) /\
  (forall fuel,
     put_fuel fuel "c" (mkTensor 4 300000) ∅ 2
       (mkCache 1048576 "fifo" (cache demo_cache) 1048576 0 0 0) = None).
Proof.
  split.
  - apply (proj1 put_termination). left. reflexivity.
  - apply (proj2 (proj2 put_termination)); simpl.
    + discriminate.
    + discriminate.
    + discriminate.
    + vm_compute. reflexivity.
Defined.

End CacheClaims.

(** ** [str] and [int] on frame ids *)

Module StrFacts.
Import Scenarios.

Lemma digit_char (m : nat) :
  (m < 10)%nat -> digit_val (ascii_of_nat (48 + m)) = Some (Z.of_nat m).
Proof.
  intros Hm. unfold digit_val. rewrite nat_ascii_embedding by lia.
  replace ((48 <=? 48 + m)%nat && (48 + m <=? 57)%nat) with true.
  - f_equal. lia.
  - symmetry. apply andb_true_intro. split; apply Nat.leb_le; lia.
Qed.

Lemma digit_of_mod (n : Z) :
  0 <= n -> digit_val (ascii_of_nat (48 + Z.to_nat (n mod 10))) = Some (n mod 10) /\
            (Z.to_nat (n mod 10) < 10)%nat.
Proof.
  intros Hn. pose proof (Z.mod_pos_bound n 10 ltac:(lia)).
  rewrite digit_char by lia. split; [f_equal; lia | lia].
Qed.

Lemma digits_of_S (f : nat) (n : Z) (acc : string) :
  digits_of (S f) n acc =
    if n <? 10 then String (ascii_of_nat (48 + Z.to_nat (n mod 10))) acc
    else digits_of f (n / 10) (String (ascii_of_nat (48 + Z.to_nat (n mod 10))) acc).
Proof. reflexivity. Qed.

Lemma parse_digits_cons (c : ascii) (s : string) (k d : Z) :
  digit_val c = Some d -> parse_digits (String c s) k = parse_digits s (k * 10 + d).
Proof. intros H. cbn [parse_digits]. by rewrite H. Qed.

Lemma parse_digits_of (fuel : nat) :
  forall n acc k, 0 <= n < 10 ^ Z.of_nat fuel ->
  exists d, 0 <= d /\ parse_digits (digits_of fuel n acc) k = parse_digits acc (k * 10 ^ d + n).
Proof.
  induction fuel as [|f IH]; intros n acc k Hn.
  - simpl in Hn. exists 0. split; [lia|]. simpl. f_equal. lia.
  - destruct (digit_of_mod n ltac:(lia)) as [Hd _].
    pose proof (Z.div_mod n 10 ltac:(lia)).
    rewrite Nat2Z.inj_succ, Z.pow_succ_r in Hn by lia.
    rewrite digits_of_S. destruct (Z.ltb_spec n 10).
    + exists 1. split; [lia|]. rewrite (parse_digits_cons _ _ _ _ Hd). f_equal.
      rewrite Z.mod_small by lia. lia.
    + destruct (IH (n / 10) (String (ascii_of_nat (48 + Z.to_nat (n mod 10))) acc) k)
        as (d & Hd0 & Hp).
      { split; [apply Z.div_pos; lia|]. apply Z.div_lt_upper_bound; lia. }
      exists (Z.succ d). split; [lia|]. rewrite Hp, (parse_digits_cons _ _ _ _ Hd). f_equal.
      rewrite Z.pow_succ_r by lia. lia.
Qed.

Lemma log2_digits (n : Z) :
  0 <= n -> 0 <= n < 10 ^ Z.of_nat (S (Z.to_nat (Z.log2 n))).
Proof.
  intros Hn. split; [done|].
  rewrite Nat2Z.inj_succ, Z2Nat.id by apply Z.log2_nonneg.
  destruct (Z.eq_dec n 0) as [->|Hn0]; [simpl; lia|].
  destruct (Z.log2_spec n ltac:(lia)) as [_ H].
  eapply Z.lt_le_trans; [exact H|].
  apply Z.pow_le_mono_l. split; [lia|lia].
Qed.

Lemma parse_digits_str (n : Z) :
  0 <= n -> parse_digits (digits_of (S (Z.to_nat (Z.log2 n))) n EmptyString) 0 = Some n.
Proof.
  intros Hn. destruct (parse_digits_of _ n EmptyString 0 (log2_digits n Hn)) as (d & _ & ->).
  simpl. f_equal; lia.
Qed.

Lemma digits_of_head (fuel : nat) :
  forall n acc, 0 <= n -> starts_digit acc -> starts_digit (digits_of fuel n acc).
Proof.
  induction fuel as [|f IH]; intros n acc Hn Ha; [done|].
  destruct (digit_of_mod n Hn) as [_ Hm].
  rewrite digits_of_S. destruct (n <? 10).
  - eexists _, _. split; [reflexivity | exact Hm].
  - apply IH; [apply Z.div_pos; lia|]. eexists _, _. split; [reflexivity | exact Hm].
Qed.

Lemma digits_of_S_head (f : nat) (n : Z) (acc : string) :
  0 <= n -> starts_digit (digits_of (S f) n acc).
Proof.
  intros Hn. destruct (digit_of_mod n Hn) as [_ Hm].
  rewrite digits_of_S. destruct (n <? 10).
  - eexists _, _. split; [reflexivity | exact Hm].
  - apply digits_of_head; [apply Z.div_pos; lia|]. eexists _, _. split; [reflexivity | exact Hm].
Qed.

Lemma digit_not_sep (m : nat) : (m < 10)%nat -> Ascii.eqb (ascii_of_nat (48 + m)) "_" = false.
Proof.
  intros Hm. destruct (Ascii.eqb_spec (ascii_of_nat (48 + m)) "_") as [E|]; [|done].
  apply (f_equal nat_of_ascii) in E. rewrite nat_ascii_embedding in E by lia.
  change (nat_of_ascii "_") with 95%nat in E. lia.
Qed.

Lemma py_split_char (c : ascii) (s : string) :
  Ascii.eqb c "_" = false -> py_split "_" s = [s] -> py_split "_" (String c s) = [String c s].
Proof. intros Hc Hs. simpl. by rewrite Hs, Hc. Qed.

Lemma digits_of_split (fuel : nat) :
  forall n acc, 0 <= n -> py_split "_" acc = [acc] ->
  py_split "_" (digits_of fuel n acc) = [digits_of fuel n acc].
Proof.
  induction fuel as [|f IH]; intros n acc Hn Ha; [done|].
  destruct (digit_of_mod n Hn) as [_ Hm].
  assert (Hc : py_split "_" (String (ascii_of_nat (48 + Z.to_nat (n mod 10))) acc) =
               [String (ascii_of_nat (48 + Z.to_nat (n mod 10))) acc]).
  { apply py_split_char; [apply digit_not_sep; exact Hm | exact Ha]. }
  rewrite digits_of_S. destruct (n <? 10); [exact Hc|].
  apply IH; [apply Z.div_pos; lia | exact Hc].
Qed.

Lemma py_int_digit (c : ascii) (s : string) (d : Z) :
  digit_val c = Some d -> py_int (String c s) = parse_unsigned (String c s).
Proof.
  intros H. destruct c as [[] [] [] [] [] [] [] []]; try reflexivity; discriminate H.
Qed.

Lemma py_str_int_split (i : Z) : py_split "_" (py_str_int i) = [py_str_int i].
Proof.
  unfold py_str_int. destruct (Z.ltb_spec i 0).
  - apply py_split_char; [reflexivity|]. apply digits_of_split; [lia | reflexivity].
  - apply digits_of_split; [lia | reflexivity].
Qed.

(** [int(str(i)) == i] *)
Lemma py_int_str (i : Z) : py_int (py_str_int i) = Ok i.
Proof.
  unfold py_str_int. destruct (Z.ltb_spec i 0).
  - set (D := digits_of (S (Z.to_nat (Z.log2 (- i)))) (- i) EmptyString).
    assert (HD : parse_digits D 0 = Some (- i)) by (apply parse_digits_str; lia).
    destruct (digits_of_S_head (Z.to_nat (Z.log2 (- i))) (- i) EmptyString ltac:(lia))
      as (m & s' & HDe & Hm).
    fold D in HDe.
    change (py_int (String "-" D)) with
      (match parse_unsigned D with Ok n => Ok (- n) | Raise e => Raise e end).
    rewrite HDe in HD |- *. unfold parse_unsigned. rewrite HD. f_equal. lia.
  - set (D := digits_of (S (Z.to_nat (Z.log2 i))) i EmptyString).
    assert (HD : parse_digits D 0 = Some i) by (apply parse_digits_str; lia).
    destruct (digits_of_S_head (Z.to_nat (Z.log2 i)) i EmptyString ltac:(lia))
      as (m & s' & HDe & Hm).
    fold D in HDe. rewrite HDe in HD |- *.
    rewrite (py_int_digit _ _ _ (digit_char m Hm)). unfold parse_unsigned. by rewrite HD.
Qed.

(** [frame_id.split("_")[1]] of [f"frame_{i}"] is [str(i)]. *)
Lemma frame_key_index (i : Z) : py_index (py_split "_" (frame_key i)) 1 = Ok (py_str_int i).
Proof.
  assert (H : forall s, py_split "_" (append "frame_" s) = "frame" :: py_split "_" s)
    by reflexivity.
  unfold frame_key. rewrite H, py_str_int_split. reflexivity.
Qed.

End StrFacts.

(** ** The engine *)

Module EngineFacts.
Import DepGraph TCache Sparse Scenarios DepGraphFacts CacheFacts PutFacts StrFacts.

Lemma frozen_refl (e : Engine) : frozen e e.
Proof. repeat split. Qed.

Lemma frozen_trans (e1 e2 e3 : Engine) : frozen e1 e2 -> frozen e2 e3 -> frozen e1 e3.
Proof. intros (?&?&?&?) (?&?&?&?). repeat split; congruence. Qed.

Lemma frozen_log_refl (e : Engine) : frozen_log e e.
Proof. split; [apply frozen_refl | done]. Qed.

Lemma frozen_log_trans (e1 e2 e3 : Engine) :
  frozen_log e1 e2 -> frozen_log e2 e3 -> frozen_log e1 e3.
Proof. intros [H1 L1] [H2 L2]. split; [exact (frozen_trans _ _ _ H1 H2) | congruence]. Qed.

(** *** Running the monad *)

Lemma bind_inv {A B} (m : M A) (k : A -> M B) (e e' : Engine) (r : Result B) :
  bind m k e = Some (e', r) ->
  (exists e1 a, m e = Some (e1, Ok a) /\ k a e1 = Some (e', r)) \/
  (exists x, m e = Some (e', Raise x) /\ r = Raise x).
Proof.
  unfold bind. destruct (m e) as [[e1 [a|x]]|].
  - left. eauto.
  - intros [= <- <-]. right. eauto.
  - discriminate.
Qed.


Lemma lift_eq {A} (r : Result A) (e : Engine) : lift r e = Some (e, r).
Proof. by destruct r. Qed.


Lemma ret_eq {A} (a : A) (e : Engine) : ret a e = Some (e, Ok a).
Proof. reflexivity. Qed.

Lemma get_engine_eq (e : Engine) : get_engine e = Some (e, Ok e).
Proof. reflexivity. Qed.

Lemma time_now_eq (e : Engine) : time_now e = Some (with_clock (clock e + 1) e, Ok (clock e)).
Proof. reflexivity. Qed.

Lemma modify_eq (f : Engine -> Engine) (e : Engine) : modify f e = Some (f e, Ok tt).
Proof. reflexivity. Qed.

(** *** Invariant fields *)

Section Preserves.
Variable R : Engine -> Engine -> Prop.
Hypothesis R_refl : forall e, R e e.
Hypothesis R_trans : forall e1 e2 e3, R e1 e2 -> R e2 e3 -> R e1 e3.

Lemma preserves_bind {A B} (m : M A) (k : A -> M B) :
  preserves R m -> (forall a, preserves R (k a)) -> preserves R (bind m k).
Proof.
  intros Hm Hk e e' r H. apply bind_inv in H as [(e1 & a & H1 & H2)|(x & H1 & _)].
  - exact (R_trans _ _ _ (Hm _ _ _ H1) (Hk _ _ _ _ H2)).
  - exact (Hm _ _ _ H1).
Qed.

Lemma preserves_ret {A} (a : A) : preserves R (ret a).
Proof. intros e e' r [= <- _]. apply R_refl. Qed.

Lemma preserves_throw {A} (x : PyExc) : preserves R (@throw A x).
Proof. intros e e' r [= <- _]. apply R_refl. Qed.

Lemma preserves_lift {A} (r : Result A) : preserves R (lift r).
Proof. intros e e' r'. rewrite lift_eq. intros [= <- _]. apply R_refl. Qed.

Lemma preserves_get_engine : preserves R get_engine.
Proof. intros e e' r [= <- _]. apply R_refl. Qed.

End Preserves.

Ltac pres_step R Rr Rt :=
  first
    [ apply (preserves_bind R Rt); [|intros ?]
    | apply (preserves_ret R Rr)
    | apply (preserves_throw R Rr)
    | apply (preserves_lift R Rr)
    | apply (preserves_get_engine R Rr) ].

Lemma time_now_fl : preserves frozen_log time_now.
Proof. intros e e' r [= <- _]. split; [repeat split | reflexivity]. Qed.

Lemma cache_get_fl (key : string) : preserves frozen_log (cache_get key).
Proof.
  unfold cache_get. pres_step frozen_log frozen_log_refl frozen_log_trans;
    [apply time_now_fl|].
  intros e e' r H. destruct (TCache.get _ _ (cache e)) as [c' o].
  injection H as <- _. split; [repeat split | reflexivity].
Qed.

Lemma cache_put_fl (key : string) (act : Tensor) (deps : gset string) :
  preserves frozen_log (cache_put key act deps).
Proof.
  unfold cache_put. pres_step frozen_log frozen_log_refl frozen_log_trans;
    [apply time_now_fl|].
  intros e e' r H. destruct (TCache.put _ _ _ _ (cache e)) as [[c'|x]|]; try discriminate;
    injection H as <- _; split; (repeat split || reflexivity).
Qed.

Lemma cache_invalidate_fl (keys : list string) : preserves frozen_log (cache_invalidate keys).
Proof. intros e e' r [= <- _]. split; [repeat split | reflexivity]. Qed.

Lemma write_frame_state (s t : Z) (fa : Tensor) (e e' : Engine) (r : Result unit) :
  write_frame s t fa e = Some (e', r) -> e' = e.
Proof.
  unfold write_frame. destruct (current_audio e); [destruct (_ || _)|]; by intros [= <- _].
Qed.

Lemma write_frame_fl (s t : Z) (fa : Tensor) : preserves frozen_log (write_frame s t fa).
Proof. intros e e' r H. apply write_frame_state in H as ->. apply frozen_log_refl. Qed.

Lemma all_deps_cached_fl (deps : list string) : preserves frozen_log (all_deps_cached deps).
Proof.
  induction deps as [|d ds IH]; simpl.
  - apply (preserves_ret _ frozen_log_refl).
  - pres_step frozen_log frozen_log_refl frozen_log_trans; [apply cache_get_fl|].
    match goal with a : option Tensor |- _ => destruct a end;
      [exact IH | apply (preserves_ret _ frozen_log_refl)].
Qed.

Lemma preserves_frozen {A} (m : M A) : preserves frozen_log m -> preserves frozen m.
Proof. intros H e e' r Hr. exact (proj1 (H _ _ _ Hr)). Qed.

Ltac pres_frozen :=
  repeat first
    [ apply preserves_frozen;
      first [ apply time_now_fl | apply cache_get_fl | apply cache_put_fl
            | apply cache_invalidate_fl | apply write_frame_fl | apply all_deps_cached_fl ]
    | pres_step frozen frozen_refl frozen_trans
    | match goal with |- preserves _ (if ?b then _ else _) => destruct b end ].

Lemma recompute_frame_frozen (f : string) : preserves frozen (recompute_frame f).
Proof.
  unfold recompute_frame. pres_frozen.
  intros e e' r [= <- _]. repeat split.
Qed.

Lemma recompute_frames_frozen (ids : list string) : preserves frozen (recompute_frames ids).
Proof.
  induction ids as [|f ids IH]; simpl.
  - apply (preserves_ret _ frozen_refl).
  - apply (preserves_bind _ frozen_trans); [apply recompute_frame_frozen | intros _; exact IH].
Qed.

Lemma apply_edit_frozen (edit : EditOperation) : preserves frozen (apply_edit edit).
Proof. unfold apply_edit. pres_frozen. apply recompute_frames_frozen. Qed.

(** *** Completed runs *)





(** *** [sorted], [range] and the edited frames *)



Lemma in_py_range (a b x : Z) : a <= x < b -> In x (py_range a b).
Proof.
  intros Hx. unfold py_range. apply in_map_iff.
  exists (Z.to_nat (x - a)). split; [lia|].
  apply in_seq. lia.
Qed.

Lemma in_py_range_inv (a b x : Z) : In x (py_range a b) -> a <= x < b.
Proof.
  unfold py_range. intros (k & <- & Hk)%in_map_iff. apply in_seq in Hk. lia.
Qed.

Lemma changed_frames_spec (sf ef : Z) (f : string) :
  f ∈ changed_frames sf ef <-> exists i, f = frame_key i /\ sf <= i <= ef.
Proof.
  unfold changed_frames. rewrite elem_of_list_to_set, list_elem_of_fmap. split.
  - intros (i & -> & Hi). apply list_elem_of_In, in_py_range_inv in Hi. exists i. split; [done | lia].
  - intros (i & -> & Hi). exists i. split; [done|]. apply list_elem_of_In, in_py_range. lia.
Qed.


(** *** Runs that raise *)

Lemma put_loop_no_raise (n : nat) (sz : Z) (s : TemporalCache) (x : PyExc) :
  put_loop n sz s <> Some (Raise x).
Proof.
  revert s. induction n as [|n IH]; intros s; simpl; [done|].
  destruct (_ >? _); [|done].
  destruct (TCache.cache s) as [|kv rest] eqn:Ec; [done|].
  assert (exists s', evict_one s = Ok s') as [s' ->]; [|apply IH].
  destruct (String.eqb_spec (eviction_policy s) "lru") as [Hl|Hl];
    [|destruct (String.eqb_spec (eviction_policy s) "lfu") as [Hf|Hf]].
  - destruct (evict_one_known s kv rest (or_introl Hl) Ec) as (k & e & _ & ->). eauto.
  - destruct (evict_one_known s kv rest (or_intror Hf) Ec) as (k & e & _ & ->). eauto.
  - rewrite evict_one_unknown by done. eauto.
Qed.










End EngineFacts.

(** ** Claims about [SparseInferenceEngine] *)

Module EngineClaims.
Import DepGraph TCache Sparse Scenarios DepGraphFacts EngineFacts StrFacts.



(** C3 (code defect): [sorted] orders the frame ids as strings, so with
    11 frames an edit at frame 2 recomputes [frame_10] first, before
    [frame_2] .. [frame_9]. *)
Lemma apply_edit_order_is_lexicographic :
  match generated (5632 # 44100) with
  | Some (e, Ok _) =>
      current_length_frames e = 11 /\
      match apply_edit (edit_at 1024 1024) e with
      | Some (e', Ok _) =>
          recompute_log e' =
            ["frame_10"; "frame_2"; "frame_3"; "frame_4"; "frame_5"; "frame_6";
             "frame_7"; "frame_8"; "frame_9"]
      | _ => False
      end
  | _ => False
  end.
Proof. vm_compute. split; reflexivity. Qed.







End EngineClaims.

(** * Further properties of the code *)

Module GraphExtraFacts.
Import DepGraph Sparse Scenarios DepGraphFacts StrFacts EngineFacts Views.

Lemma py_range_empty (a b : Z) : b <= a -> py_range a b = [].
Proof. intros H. unfold py_range. replace (Z.to_nat (b - a)) with 0%nat by lia. reflexivity. Qed.

Lemma py_range_snoc (a b : Z) : a <= b -> py_range a (b + 1) = py_range a b ++ [b].
Proof.
  intros H. unfold py_range.
  replace (Z.to_nat (b + 1 - a)) with (S (Z.to_nat (b - a))) by lia.
  rewrite seq_S, map_app. simpl. do 2 f_equal. lia.
Qed.

Lemma py_range_cons (a b : Z) : a < b -> py_range a b = a :: py_range (a + 1) b.
Proof.
  intros H. unfold py_range.
  replace (Z.to_nat (b - a)) with (S (Z.to_nat (b - (a + 1)))) by lia.
  simpl. f_equal; [lia|]. rewrite <- seq_shift, map_map. apply map_ext. intros k. lia.
Qed.

Lemma nodup_map_inj {A B} (f : A -> B) (l : list A) :
  (forall x y, f x = f y -> x = y) -> NoDup l -> NoDup (map f l).
Proof.
  intros Hf. induction 1 as [|x l Hx _ IH]; simpl; constructor; [|exact IH].
  intros Hin. apply list_elem_of_In, in_map_iff in Hin as (y & Hy & Hin).
  apply Hf in Hy as ->. apply Hx, list_elem_of_In, Hin.
Qed.

Lemma py_range_nodup (a b : Z) : NoDup (py_range a b).
Proof.
  unfold py_range. apply nodup_map_inj; [|apply NoDup_ListNoDup, seq_NoDup].
  intros x y H. lia.
Qed.

Lemma frame_key_inj (i j : Z) : frame_key i = frame_key j -> i = j.
Proof.
  intros H. pose proof (frame_key_index i) as Hi. rewrite H, frame_key_index in Hi.
  injection Hi as Hs. pose proof (py_int_str i) as Hj. rewrite <- Hs, py_int_str in Hj.
  by injection Hj.
Qed.

Lemma chain_ind (P : Z -> Prop) :
  (forall n, n <= 1 -> P n) -> (forall n, 1 <= n -> P n -> P (n + 1)) -> forall n, P n.
Proof.
  intros Hb Hs n. destruct (Z.le_gt_cases n 1) as [H|H]; [by apply Hb|].
  replace n with (1 + Z.of_nat (Z.to_nat (n - 1))) by lia.
  induction (Z.to_nat (n - 1)) as [|k IH]; [apply Hb; lia|].
  rewrite Nat2Z.inj_succ, Z.add_succ_r. unfold Z.succ. apply Hs; [lia | exact IH].
Qed.

Lemma chain_small (n : Z) : n <= 1 -> linear_chain n = empty_graph.
Proof. intros H. unfold linear_chain. rewrite py_range_empty by lia. reflexivity. Qed.

Lemma chain_succ (n : Z) :
  1 <= n -> linear_chain (n + 1) = add_dependency (frame_key n) (frame_key (n - 1)) (linear_chain n).
Proof. intros H. unfold linear_chain. rewrite py_range_snoc, fold_left_app by lia. reflexivity. Qed.

(** The forward map of the chain: [frame_i] depends on [frame_(i-1)]. *)
Lemma chain_graph (n : Z) (x : string) (D : gset string) :
  graph (linear_chain n) !! x = Some D <->
  exists i, x = frame_key i /\ 1 <= i < n /\ D = {[frame_key (i - 1)]}.
Proof.
  revert x D. induction n as [n Hn|n Hn IH] using chain_ind; intros x D.
  - rewrite chain_small by done. simpl. rewrite lookup_empty. split; [done|].
    intros (i & _ & Hi & _). lia.
  - rewrite chain_succ by done. simpl.
    assert (Hnone : graph (linear_chain n) !! frame_key n = None).
    { destruct (graph (linear_chain n) !! frame_key n) as [D'|] eqn:E; [|done].
      apply IH in E as (i & Ei & Hi & _). apply frame_key_inj in Ei. lia. }
    rewrite Hnone. simpl.
    destruct (decide (x = frame_key n)) as [->|Hx].
    + rewrite lookup_insert_eq. split.
      * intros [= <-]. exists n. split; [done|]. split; [lia|]. set_solver.
      * intros (i & Ei & Hi & ->). apply frame_key_inj in Ei as <-. f_equal. set_solver.
    + rewrite lookup_insert_ne by congruence. rewrite IH. split.
      * intros (i & -> & Hi & ->). exists i. split; [done|]. split; [lia | done].
      * intros (i & -> & Hi & ->). exists i. split; [done|]. split; [|done].
        assert (i <> n) by congruence. lia.
Qed.

(** The reverse map of the chain: [frame_(i+1)] is the one dependent of
    [frame_i]. *)
Lemma chain_reverse (n : Z) (x : string) (D : gset string) :
  reverse_graph (linear_chain n) !! x = Some D <->
  exists i, x = frame_key i /\ 0 <= i /\ i + 1 < n /\ D = {[frame_key (i + 1)]}.
Proof.
  revert x D. induction n as [n Hn|n Hn IH] using chain_ind; intros x D.
  - rewrite chain_small by done. simpl. rewrite lookup_empty. split; [done|].
    intros (i & _ & Hi & Hi' & _). lia.
  - rewrite chain_succ by done. simpl.
    assert (Hnone : reverse_graph (linear_chain n) !! frame_key (n - 1) = None).
    { destruct (reverse_graph (linear_chain n) !! frame_key (n - 1)) as [D'|] eqn:E; [|done].
      apply IH in E as (i & Ei & Hi & Hi' & _). apply frame_key_inj in Ei. lia. }
    rewrite Hnone. simpl.
    destruct (decide (x = frame_key (n - 1))) as [->|Hx].
    + rewrite lookup_insert_eq. split.
      * intros [= <-]. exists (n - 1). split; [done|]. split; [lia|]. split; [lia|].
        replace (n - 1 + 1) with n by lia. set_solver.
      * intros (i & Ei & Hi & Hi' & ->). apply frame_key_inj in Ei as <-.
        replace (n - 1 + 1) with n by lia. f_equal. set_solver.
    + rewrite lookup_insert_ne by congruence. rewrite IH. split.
      * intros (i & -> & Hi & Hi' & ->). exists i. split; [done|]. split; [lia|]. split; [lia | done].
      * intros (i & -> & Hi & Hi' & ->). exists i. split; [done|]. split; [done|].
        split; [|done]. assert (i <> n - 1) by congruence. lia.
Qed.

Lemma chain_dependents (n i : Z) :
  get_dependents (linear_chain n) (frame_key i) =
    if (0 <=? i) && (i + 1 <? n) then {[frame_key (i + 1)]} else ∅.
Proof.
  unfold get_dependents.
  destruct (reverse_graph (linear_chain n) !! frame_key i) as [D|] eqn:E; simpl.
  - apply chain_reverse in E as (j & Ej & Hj & Hj' & ->). apply frame_key_inj in Ej as <-.
    replace ((0 <=? i) && (i + 1 <? n)) with true by lia. reflexivity.
  - destruct ((0 <=? i) && (i + 1 <? n)) eqn:C; [|reflexivity].
    assert (reverse_graph (linear_chain n) !! frame_key i = Some {[frame_key (i + 1)]})
      as E'; [|congruence].
    apply chain_reverse. exists i. split; [done|]. split; [lia|]. split; [lia | done].
Qed.

Lemma chain_dependencies (n i : Z) :
  get_dependencies (linear_chain n) (frame_key i) =
    if (1 <=? i) && (i <? n) then {[frame_key (i - 1)]} else ∅.
Proof.
  unfold get_dependencies.
  destruct (graph (linear_chain n) !! frame_key i) as [D|] eqn:E; simpl.
  - apply chain_graph in E as (j & Ej & Hj & ->). apply frame_key_inj in Ej as <-.
    replace ((1 <=? i) && (i <? n)) with true by lia. reflexivity.
  - destruct ((1 <=? i) && (i <? n)) eqn:C; [|reflexivity].
    assert (graph (linear_chain n) !! frame_key i = Some {[frame_key (i - 1)]})
      as E'; [|congruence].
    apply chain_graph. exists i. split; [done|]. split; [lia | done].
Qed.

(** Downstream of the frames [sf .. ef] on the chain of [n] frames. *)
Lemma chain_downstream (n sf ef : Z) (x : string) :
  0 <= sf <= ef ->
  downstream (linear_chain n) (changed_frames sf ef) x <->
  exists j, x = frame_key j /\ sf <= j <= Z.max ef (n - 1).
Proof.
  intros Hr. split.
  - induction 1 as [x Hx|x y _ IH Hy].
    + apply changed_frames_spec in Hx as (j & -> & Hj). exists j. split; [done | lia].
    + destruct IH as (j & -> & Hj). rewrite chain_dependents in Hy.
      destruct ((0 <=? j) && (j + 1 <? n)) eqn:C; [|set_solver].
      apply elem_of_singleton in Hy as ->. exists (j + 1). split; [done | lia].
  - intros (j & -> & Hj). destruct (Z.le_gt_cases j ef) as [Hle|Hgt].
    + apply down_changed, changed_frames_spec. exists j. split; [done | lia].
    + assert (Hk : forall k : nat, ef + Z.of_nat k <= Z.max ef (n - 1) ->
                 downstream (linear_chain n) (changed_frames sf ef) (frame_key (ef + Z.of_nat k))).
      { induction k as [|k IH]; intros Hk.
        - apply down_changed, changed_frames_spec. exists (ef + 0). split; [done | lia].
        - apply (down_dependent _ _ (frame_key (ef + Z.of_nat k))); [apply IH; lia|].
          rewrite chain_dependents.
          replace ((0 <=? ef + Z.of_nat k) && (ef + Z.of_nat k + 1 <? n)) with true by lia.
          replace (ef + Z.of_nat (S k)) with (ef + Z.of_nat k + 1) by lia. set_solver. }
      replace j with (ef + Z.of_nat (Z.to_nat (j - ef))) by lia. apply Hk. lia.
Qed.

Lemma changed_frames_size (a b : Z) : size (changed_frames a b) = Z.to_nat (b + 1 - a).
Proof.
  unfold changed_frames. rewrite size_list_to_set.
  - unfold py_range. rewrite !length_map, length_seq. reflexivity.
  - apply nodup_map_inj; [|apply py_range_nodup]. intros i j. apply frame_key_inj.
Qed.

Lemma chain_affected (n sf ef : Z) :
  0 <= sf <= ef ->
  get_affected_nodes (linear_chain n) (changed_frames sf ef) = changed_frames sf (Z.max ef (n - 1)).
Proof.
  intros Hr. apply set_eq. intros x.
  rewrite (proj1 (get_affected_nodes_spec _ _)), chain_downstream, changed_frames_spec by done.
  reflexivity.
Qed.

End GraphExtraFacts.

Module GraphExtraFacts2.
Import DepGraph Sparse Scenarios DepGraphFacts StrFacts EngineFacts Views GraphExtraFacts.

Lemma affected_iff (g : DependencyGraph) (C : gset string) (x : string) :
  x ∈ get_affected_nodes g C <-> downstream g C x.
Proof. apply get_affected_nodes_spec. Qed.

Lemma downstream_mono (g : DependencyGraph) (C D : gset string) (x : string) :
  C ⊆ D -> downstream g C x -> downstream g D x.
Proof.
  intros HCD. induction 1 as [x Hx|x y _ IH Hy].
  - apply down_changed. set_solver.
  - exact (down_dependent _ _ _ _ IH Hy).
Qed.

Lemma downstream_closed (g : DependencyGraph) (C : gset string) (x : string) :
  downstream g (get_affected_nodes g C) x -> downstream g C x.
Proof.
  induction 1 as [x Hx|x y _ IH Hy].
  - by apply affected_iff.
  - exact (down_dependent _ _ _ _ IH Hy).
Qed.

Lemma downstream_union (g : DependencyGraph) (C D : gset string) (x : string) :
  downstream g (C ∪ D) x <-> downstream g C x \/ downstream g D x.
Proof.
  split.
  - induction 1 as [x Hx|x y _ IH Hy].
    + apply elem_of_union in Hx as [Hx|Hx]; [left | right]; by apply down_changed.
    + destruct IH as [IH|IH]; [left | right]; exact (down_dependent _ _ _ _ IH Hy).
  - intros [H|H]; (eapply downstream_mono; [|exact H]); set_solver.
Qed.



Lemma visualize_lines_in (g : DependencyGraph) (line : string) :
  In line (visualize_lines g) <->
  exists node dep, line = edge_line dep node /\ dep ∈ get_dependencies g node.
Proof.
  unfold visualize_lines, get_dependencies. rewrite in_flat_map. split.
  - intros ([node D] & Hnd & Hl). apply in_map_iff in Hl as (dep & <- & Hdep).
    apply list_elem_of_In, elem_of_map_to_list in Hnd.
    exists node, dep. split; [done|]. rewrite Hnd. simpl.
    by apply elem_of_elements, list_elem_of_In.
  - intros (node & dep & -> & Hdep).
    destruct (graph g !! node) as [D|] eqn:E; simpl in Hdep; [|set_solver].
    exists (node, D). split; [by apply list_elem_of_In, elem_of_map_to_list|].
    apply in_map_iff. exists dep. split; [done|]. by apply list_elem_of_In, elem_of_elements.
Qed.

Lemma visualize_lines_length (g : DependencyGraph) :
  length (visualize_lines g) = sum_list_with (fun nd => size nd.2) (map_to_list (graph g)).
Proof.
  unfold visualize_lines. induction (map_to_list (graph g)) as [|[node D] l IH]; [done|].
  simpl. rewrite length_app, length_map, IH. reflexivity.
Qed.

End GraphExtraFacts2.

Module CacheExtraFacts.
Import TCache Scenarios CacheFacts PutFacts.

Section Dict.
Context {V : Type}.

Lemma dict_get_none (k : string) (d : list (string * V)) :
  dict_get k d = None <-> ~ In k (map fst d).
Proof.
  induction d as [|[k0 v0] d IH]; simpl; [tauto|].
  destruct (String.eqb_spec k k0) as [->|Hk]; [split; [done | tauto]|].
  rewrite IH. split; [intros H [E|E]; [congruence | tauto] | tauto].
Qed.

Lemma dict_del_keys (k k' : string) (d : list (string * V)) :
  In k' (map fst (dict_del k d)) -> In k' (map fst d).
Proof.
  induction d as [|[k0 v0] d IH]; simpl; [done|].
  destruct (String.eqb k k0); simpl; [tauto|]. intros [H|H]; [by left | right; auto].
Qed.

Lemma dict_del_nodup (k : string) (d : list (string * V)) :
  NoDup (map fst d) -> NoDup (map fst (dict_del k d)).
Proof.
  induction d as [|[k0 v0] d IH]; simpl; [done|].
  intros Hnd. apply NoDup_cons in Hnd as [Hn Hnd].
  destruct (String.eqb k k0); [done|]. simpl. apply NoDup_cons. split; [|auto].
  intros Hin. apply Hn, list_elem_of_In, (dict_del_keys k), list_elem_of_In, Hin.
Qed.

Lemma dict_get_del_other (k k' : string) (d : list (string * V)) :
  k' <> k -> dict_get k' (dict_del k d) = dict_get k' d.
Proof.
  intros Hne. induction d as [|[k0 v0] d IH]; simpl; [done|].
  destruct (String.eqb_spec k k0) as [->|Hk]; simpl.
  - destruct (String.eqb_spec k' k0); [congruence | done].
  - destruct (String.eqb k' k0); [done | exact IH].
Qed.

Lemma dict_get_del_same (k : string) (d : list (string * V)) :
  NoDup (map fst d) -> dict_get k (dict_del k d) = None.
Proof.
  induction d as [|[k0 v0] d IH]; simpl; [done|].
  intros Hnd. apply NoDup_cons in Hnd as [Hn Hnd].
  destruct (String.eqb_spec k k0) as [->|Hk]; simpl.
  - apply dict_get_none. intros Hin. apply Hn, list_elem_of_In, Hin.
  - destruct (String.eqb_spec k k0); [congruence | auto].
Qed.

Lemma dict_get_del_none (k k' : string) (d : list (string * V)) :
  dict_get k' d = None -> dict_get k' (dict_del k d) = None.
Proof.
  rewrite !dict_get_none. intros H Hin. apply H, (dict_del_keys k), Hin.
Qed.

Lemma dict_get_app_notin (k : string) (v : V) (pre post : list (string * V)) :
  ~ In k (map fst pre) -> dict_get k (pre ++ (k, v) :: post) = Some v.
Proof.
  induction pre as [|[k0 v0] pre IH]; simpl; intros Hn.
  - by rewrite String.eqb_refl.
  - destruct (String.eqb_spec k k0) as [->|]; [tauto | auto].
Qed.

Lemma dict_del_app_notin (k : string) (v : V) (pre post : list (string * V)) :
  ~ In k (map fst pre) -> dict_del k (pre ++ (k, v) :: post) = pre ++ post.
Proof.
  induction pre as [|[k0 v0] pre IH]; simpl; intros Hn.
  - by rewrite String.eqb_refl.
  - destruct (String.eqb_spec k k0) as [->|]; [tauto | f_equal; auto].
Qed.

(** [min] returns the first key, in order, of least value. *)
Lemma argmin_from_first (f : V -> Z) (best : string * V) (rest : list (string * V)) :
  exists pre post,
    best :: rest = pre ++ argmin_from f best rest :: post /\
    forall kv, In kv pre -> f (snd (argmin_from f best rest)) < f (snd kv).
Proof.
  revert best. induction rest as [|[k v] rest IH]; intros best; simpl.
  - exists [], []. split; [done | intros ? []].
  - destruct (Z.ltb_spec (f v) (f (snd best))) as [Hlt|Hge].
    + destruct (IH (k, v)) as (pre & post & Eq & Hpre).
      exists (best :: pre), post. split; [by rewrite Eq|].
      intros kv [<-|Hin]; [|auto].
      pose proof (argmin_from_le f (k, v) rest (k, v) (or_introl eq_refl)). simpl in *. lia.
    + destruct (IH best) as (pre & post & Eq & Hpre).
      destruct pre as [|p pre].
      * injection Eq as Eb <-. exists [], ((k, v) :: rest). split; [by rewrite <- Eb | intros ? []].
      * injection Eq as <- Eq. exists (best :: (k, v) :: pre), post.
        split; [cbn [app]; do 2 f_equal; exact Eq|].
        assert (Hb : f (snd (argmin_from f best rest)) < f (snd best)) by (apply Hpre; by left).
        intros kv [<-|[<-|Hin]]; [done | simpl; lia | apply Hpre; by right].
Qed.

End Dict.

Lemma entries_bytes_nonneg (d : list (string * CacheEntry)) :
  Forall (fun kv => 0 <= size_bytes (snd kv)) d -> 0 <= entries_bytes d.
Proof. induction 1 as [|kv d Hkv _ IH]; simpl; lia. Qed.

(** One [_evict_one]: the running total drops by exactly the size of the
    entry it deletes, if any. *)
Lemma evict_one_step (s s1 : TemporalCache) :
  evict_one s = Ok s1 ->
  current_size_bytes s1 - stored_bytes s1 = current_size_bytes s - stored_bytes s /\
  (forall k, dict_get k (cache s) = None -> dict_get k (cache s1) = None) /\
  max_size_bytes s1 = max_size_bytes s /\ eviction_policy s1 = eviction_policy s /\
  hits s1 = hits s /\ misses s1 = misses s.
Proof.
  unfold evict_one.
  assert (Hby : forall f, evict_by f s = Ok s1 ->
    current_size_bytes s1 - stored_bytes s1 = current_size_bytes s - stored_bytes s /\
    (forall k, dict_get k (cache s) = None -> dict_get k (cache s1) = None) /\
    max_size_bytes s1 = max_size_bytes s /\ eviction_policy s1 = eviction_policy s /\
    hits s1 = hits s /\ misses s1 = misses s).
  { intros f. unfold evict_by. destruct (py_min_key f (cache s)) as [k|x]; [|discriminate].
    destruct (dict_get k (cache s)) as [e|] eqn:Eg; [|discriminate].
    intros [= <-]. unfold stored_bytes. simpl. rewrite (entries_bytes_del _ _ _ Eg).
    split; [lia|]. split; [|done]. intros k'. apply dict_get_del_none. }
  destruct (String.eqb _ "lru"); [apply Hby|].
  destruct (String.eqb _ "lfu"); [apply Hby|].
  intros [= <-]. split; [done|]. split; [done|]. done.
Qed.

(** The eviction loop of [put] keeps the gap between the running total and
    the stored bytes, and never brings a key back. *)
Lemma put_loop_step (n : nat) (sz : Z) (s s1 : TemporalCache) (b : bool) :
  put_loop n sz s = Some (Ok (b, s1)) ->
  current_size_bytes s1 - stored_bytes s1 = current_size_bytes s - stored_bytes s /\
  (forall k, dict_get k (cache s) = None -> dict_get k (cache s1) = None) /\
  max_size_bytes s1 = max_size_bytes s /\ eviction_policy s1 = eviction_policy s /\
  hits s1 = hits s /\ misses s1 = misses s.
Proof.
  revert s. induction n as [|n IH]; intros s H; cbn [put_loop] in H; [discriminate|].
  destruct (_ >? _).
  - destruct (cache s) as [|kv rest] eqn:Ec; [injection H as _ <-; rewrite ?Ec; repeat split; auto|].
    destruct (evict_one s) as [s2|x] eqn:Ev; [|discriminate].
    destruct (evict_one_step _ _ Ev) as (G1 & K1 & M1 & P1 & H1 & Ms1).
    destruct (IH _ H) as (G2 & K2 & M2 & P2 & H2 & Ms2).
    rewrite <- Ec. split; [lia|]. split; [auto|]. split; [congruence|]. split; [congruence|]. split; congruence.
  - injection H as _ <-. repeat split; auto.
Qed.

(** Under "lru" and "lfu", with exact accounting, an entry no larger than
    the capacity always fits once the loop is done. *)
Lemma put_loop_fits (n : nat) (sz : Z) (s : TemporalCache) :
  (eviction_policy s = "lru" \/ eviction_policy s = "lfu") ->
  (length (cache s) < n)%nat ->
  current_size_bytes s = stored_bytes s -> sz <= max_size_bytes s ->
  exists s1, put_loop n sz s = Some (Ok (true, s1)).
Proof.
  revert s. induction n as [|n IH]; intros s Hp Hlt Hacc Hsz; [lia|]. simpl.
  destruct (Z.gtb_spec (current_size_bytes s + sz) (max_size_bytes s)) as [Hgt|Hle]; [|eauto].
  destruct (cache s) as [|kv rest] eqn:Ec.
  - unfold stored_bytes in Hacc. rewrite Ec in Hacc. simpl in Hacc. lia.
  - destruct (evict_one_known s kv rest Hp Ec) as (k & e & Eg & ->).
    apply IH; simpl.
    + exact Hp.
    + rewrite (dict_del_length _ _ _ Eg). rewrite Ec in *. simpl in *. lia.
    + unfold stored_bytes in *. simpl. rewrite (entries_bytes_del _ _ _ Eg). lia.
    + exact Hsz.
Qed.

Lemma invalidate_one_step (s : TemporalCache) (k : string) :
  NoDup (map fst (cache s)) ->
  let s' := invalidate_one s k in
  NoDup (map fst (cache s')) /\ dict_get k (cache s') = None /\
  (forall k', k' <> k -> dict_get k' (cache s') = dict_get k' (cache s)) /\
  current_size_bytes s' - stored_bytes s' = current_size_bytes s - stored_bytes s /\
  max_size_bytes s' = max_size_bytes s /\
  hits s' = hits s /\ misses s' = misses s /\ evictions s' = evictions s.
Proof.
  intros Hnd. unfold invalidate_one.
  destruct (dict_get k (cache s)) as [e|] eqn:Eg; simpl.
  - unfold stored_bytes. simpl. rewrite (entries_bytes_del _ _ _ Eg).
    split; [by apply dict_del_nodup|]. split; [by apply dict_get_del_same|].
    split; [intros k' Hk; by apply dict_get_del_other|]. split; [lia|]. done.
  - split; [done|]. split; [done|]. split; done.
Qed.

Lemma run_ops_forall (P : TemporalCache -> Prop) (ops : list CacheOp) (s : TemporalCache) :
  (forall op s1 s2, P s1 -> exec_op op s1 = Some (Ok s2) -> P s2) ->
  P s -> Forall P (run_ops ops s).
Proof.
  intros Hstep. revert s. induction ops as [|op ops IH]; intros s Hs; simpl; [constructor|].
  destruct (exec_op op s) as [[s'|x]|] eqn:E; try constructor.
  - exact (Hstep _ _ _ Hs E).
  - apply IH. exact (Hstep _ _ _ Hs E).
Qed.

(** Every operation keeps the capacity, and the hit and miss counters
    never decrease. *)
Lemma exec_op_counters (op : CacheOp) (s s' : TemporalCache) :
  exec_op op s = Some (Ok s') ->
  max_size_bytes s' = max_size_bytes s /\ hits s <= hits s' /\ misses s <= misses s'.
Proof.
  destruct op as [k a d t|k t|ks|]; simpl.
  - unfold put, put_fuel.
    destruct (put_loop _ _ s) as [[[[] s1]|x]|] eqn:E; try discriminate;
      intros [= <-]; destruct (put_loop_step _ _ _ _ _ E) as (_ & _ & M & _ & Hh & Hm);
      simpl; lia.
  - intros [= <-]. unfold get. destruct (dict_get k (cache s)); simpl; lia.
  - intros [= <-]. unfold invalidate. revert s. induction ks as [|k ks IH]; intros s; simpl; [lia|].
    specialize (IH (invalidate_one s k)).
    unfold invalidate_one in *. destruct (dict_get k (cache s)); simpl in *; lia.
  - intros [= <-]. simpl. lia.
Qed.

End CacheExtraFacts.

Module EngineExtraFacts.
Import DepGraph TCache Sparse Scenarios Scenarios2 CacheFacts PutFacts EngineFacts
  GraphExtraFacts CacheExtraFacts.

Lemma put_returns (key : string) (act : Tensor) (deps : gset string) (now : Z) (s : TemporalCache) :
  (eviction_policy s = "lru" \/ eviction_policy s = "lfu") ->
  exists s', put key act deps now s = Some (Ok s') /\ eviction_policy s' = eviction_policy s.
Proof.
  intros Hp. unfold put, put_fuel.
  destruct (put_loop_total (tensor_bytes act) (S (length (TCache.cache s))) s Hp ltac:(lia))
    as (b & s1 & E & _).
  rewrite E. destruct (put_loop_step _ _ _ _ _ E) as (_ & _ & _ & P & _).
  destruct b; eexists; (split; [reflexivity|]); simpl; exact P.
Qed.

Lemma cache_put_returns (key : string) (act : Tensor) (deps : gset string) (e : Engine) :
  known_policy e ->
  exists e', cache_put key act deps e = Some (e', Ok tt) /\ known_policy e' /\
    frame_size e' = frame_size e /\ dependency_graph e' = dependency_graph e /\
    current_audio e' = current_audio e /\ current_length_frames e' = current_length_frames e.
Proof.
  intros Hp. unfold cache_put, bind. rewrite time_now_eq.
  destruct (put_returns key act deps (clock e) (cache e) Hp) as (c' & E & P).
  simpl. rewrite E. eexists. split; [reflexivity|]. unfold known_policy. simpl.
  rewrite P. split; [exact Hp|]. repeat split.
Qed.

Lemma generate_frame_returns (n i : Z) (e : Engine) :
  known_policy e ->
  exists e', generate_frame n i e = Some (e', Ok tt) /\ known_policy e' /\
    frame_size e' = frame_size e /\
    dependency_graph e' = gen_step (dependency_graph e) i /\
    current_audio e' = current_audio e /\ current_length_frames e' = current_length_frames e.
Proof.
  intros Hp. unfold generate_frame, bind. rewrite get_engine_eq. unfold gen_step.
  destruct (i >? 0); [rewrite modify_eq | rewrite ret_eq];
  match goal with
  | |- context [cache_put ?k ?a ?d ?e0] =>
      destruct (cache_put_returns k a d e0 ltac:(exact Hp)) as (e2 & E2 & P2 & F2 & G2 & A2 & L2)
  end;
  rewrite E2; exists e2; (split; [reflexivity|]); (split; [exact P2|]);
  rewrite F2, G2, A2, L2; repeat split.
Qed.

Lemma generate_frames_returns (n : Z) (idx : list Z) (e : Engine) :
  known_policy e ->
  exists e', generate_frames n idx e = Some (e', Ok tt) /\ known_policy e' /\
    frame_size e' = frame_size e /\
    dependency_graph e' = fold_left gen_step idx (dependency_graph e) /\
    current_audio e' = current_audio e /\ current_length_frames e' = current_length_frames e.
Proof.
  revert e. induction idx as [|i idx IH]; intros e Hp; simpl.
  - eexists. split; [reflexivity|]. repeat split; exact Hp.
  - destruct (generate_frame_returns n i e Hp) as (e2 & E2 & P2 & F2 & G2 & A2 & L2).
    unfold bind at 1. rewrite E2.
    destruct (IH e2 P2) as (e3 & E3 & P3 & F3 & G3 & A3 & L3).
    exists e3. split; [exact E3|]. split; [exact P3|].
    rewrite G3, G2, F3, F2, A3, A2, L3, L2. repeat split.
Qed.

Lemma gen_steps_chain (m : Z) (g : DependencyGraph) :
  fold_left gen_step (py_range 0 m) g =
  fold_left (fun g i => add_dependency (frame_key i) (frame_key (i - 1)) g) (py_range 1 m) g.
Proof.
  destruct (Z.le_gt_cases m 0) as [Hm|Hm].
  - rewrite !py_range_empty by lia. reflexivity.
  - rewrite py_range_cons by lia. cbn [fold_left]. replace (0 + 1) with 1 by lia.
    change (gen_step g 0) with g.
    assert (Hl : forall l g, (forall i, In i l -> i > 0) ->
              fold_left gen_step l g =
              fold_left (fun g i => add_dependency (frame_key i) (frame_key (i - 1)) g) l g).
    { induction l as [|i l IH]; intros g' Hpos; [done|]. cbn [fold_left].
      unfold gen_step at 2. replace (i >? 0) with true by (symmetry; apply Z.gtb_lt, Z.gt_lt, Hpos; by left).
      apply IH. intros j Hj. apply Hpos. by right. }
    apply Hl. intros i Hi%in_py_range_inv. lia.
Qed.

End EngineExtraFacts.

Module EngineExtraFacts2.
Import DepGraph TCache Sparse Scenarios EngineFacts GraphExtraFacts EngineExtraFacts.

Lemma bind_step {A B} (m : M A) (k : A -> M B) (e e1 : Engine) (a : A) :
  m e = Some (e1, Ok a) -> bind m k e = k a e1.
Proof. intros H. unfold bind. by rewrite H. Qed.

Lemma bind_raise {A B} (m : M A) (k : A -> M B) (e e1 : Engine) (x : PyExc) :
  m e = Some (e1, Raise x) -> bind m k e = Some (e1, Raise x).
Proof. intros H. unfold bind. by rewrite H. Qed.

End EngineExtraFacts2.

Module GraphExtras.
Import DepGraph Sparse Scenarios DepGraphFacts EngineFacts Views GraphExtraFacts GraphExtraFacts2.

(** [add_dependency(node, dep)] then lookup: [get_dependencies] gains
    [dep] at [node] only, and [get_dependents] gains [node] at [dep] only. *)
Theorem add_dependency_lookup (node dep x : string) (g : DependencyGraph) :
  get_dependencies (add_dependency node dep g) x =
    (if decide (x = node) then {[dep]} ∪ get_dependencies g x else get_dependencies g x) /\
  get_dependents (add_dependency node dep g) x =
    (if decide (x = dep) then {[node]} ∪ get_dependents g x else get_dependents g x).
Proof.
  unfold get_dependencies, get_dependents, add_dependency. cbn [graph reverse_graph].
  split; destruct (decide _) as [->|Hx].
  - by rewrite lookup_insert_eq.
  - by rewrite lookup_insert_ne by congruence.
  - by rewrite lookup_insert_eq.
  - by rewrite lookup_insert_ne by congruence.
Qed.

(** [get_affected_nodes] contains its input and is a closure: applying it
    to its own result adds nothing. *)
Theorem get_affected_nodes_idempotent (g : DependencyGraph) (C : gset string) :
  C ⊆ get_affected_nodes g C /\
  get_affected_nodes g (get_affected_nodes g C) = get_affected_nodes g C.
Proof.
  split.
  - intros x Hx. apply affected_iff. by apply down_changed.
  - apply set_eq. intros x. rewrite !affected_iff. split; [apply downstream_closed|].
    intros H. apply down_changed, affected_iff, H.
Qed.

(** The affected set of a union of changed sets is the union of their
    affected sets. *)
Theorem get_affected_nodes_union (g : DependencyGraph) (C D : gset string) :
  get_affected_nodes g (C ∪ D) = get_affected_nodes g C ∪ get_affected_nodes g D.
Proof.
  apply set_eq. intros x. rewrite elem_of_union, !affected_iff. apply downstream_union.
Qed.

(** On the chain [generate_full] builds for [n] frames, frame [i] depends
    on frame [i-1] alone (for [1 <= i < n]) and frame [i+1] alone depends
    on it (for [0 <= i] and [i+1 < n]); otherwise both sets are empty. *)
Theorem linear_chain_neighbours (n i : Z) :
  get_dependencies (linear_chain n) (frame_key i) =
    (if (1 <=? i) && (i <? n) then {[frame_key (i - 1)]} else ∅) /\
  get_dependents (linear_chain n) (frame_key i) =
    (if (0 <=? i) && (i + 1 <? n) then {[frame_key (i + 1)]} else ∅).
Proof. split; [apply chain_dependencies | apply chain_dependents]. Qed.

(** On the chain of [n] frames, the frames [sf .. ef] (with [0 <= sf <= ef])
    affect exactly the frames [sf .. max ef (n-1)]: there are
    [max ef (n-1) - sf + 1] of them. *)
Theorem linear_chain_affected (n sf ef : Z) :
  0 <= sf <= ef ->
  get_affected_nodes (linear_chain n) (changed_frames sf ef) = changed_frames sf (Z.max ef (n - 1)) /\
  size (get_affected_nodes (linear_chain n) (changed_frames sf ef)) = Z.to_nat (Z.max ef (n - 1) - sf + 1).
Proof.
  intros Hr. rewrite chain_affected by done. split; [done|].
  rewrite changed_frames_size. f_equal. lia.
Qed.

Lemma linear_chain_affected_witness :
  0 <= 3 <= 4 /\
  get_affected_nodes (linear_chain 10) (changed_frames 3 4) = changed_frames 3 (Z.max 4 (10 - 1)) /\
  size (get_affected_nodes (linear_chain 10) (changed_frames 3 4)) = Z.to_nat (Z.max 4 (10 - 1) - 3 + 1).
Proof. split; [lia | apply (linear_chain_affected 10 3 4); lia]. Defined.

(** [visualize()] writes one line [  "dep" -> "node";] for each edge
    [node -> dep] of the graph and no other edge line; their number is the
    edge count [get_performance_report] prints. *)
Theorem visualize_edges (g : DependencyGraph) :
  (forall line, In line (visualize_lines g) <->
     exists node dep, line = edge_line dep node /\ dep ∈ get_dependencies g node) /\
  Z.of_nat (length (visualize_lines g)) = graph_edges g.
Proof.
  split; [apply visualize_lines_in|].
  unfold graph_edges. by rewrite visualize_lines_length.
Qed.

End GraphExtras.

Module CacheExtras.
Import TCache Scenarios Scenarios2 CacheFacts PutFacts CacheExtraFacts.

(** A property every operation keeps holds in every state a run reaches. *)
Lemma reachable_forall (P : TemporalCache -> Prop) (ops : list CacheOp) (s0 s : TemporalCache) :
  (forall op s1 s2, P s1 -> exec_op op s1 = Some (Ok s2) -> P s2) ->
  P s0 -> In s (s0 :: run_ops ops s0) -> P s.
Proof.
  intros Hstep H0 [<-|Hin]; [done|].
  pose proof (run_ops_forall P ops s0 Hstep H0) as HF.
  rewrite List.Forall_forall in HF. by apply HF.
Qed.

Lemma q_ratio_bounds (a b : Z) : 0 <= a <= b -> 0 < b -> (0 <= inject_Z a / inject_Z b <= 1)%Q.
Proof.
  intros Hab Hb. destruct b as [|p|p]; [lia| |lia].
  unfold Qle, Qdiv, Qmult, Qinv, inject_Z. simpl. split; lia.
Qed.

(** [get(key)]: it returns the stored activations on a hit and [None] on a
    miss, counts exactly one hit or one miss, refreshes the timestamp and
    increments the hit count of the entry it hits, and changes neither the
    keys nor the byte accounting nor the eviction count. *)
Theorem get_bookkeeping (key : string) (now : Z) (s : TemporalCache) :
  let s' := fst (get key now s) in
  snd (get key now s) = option_map activations (dict_get key (cache s)) /\
  hits s' + misses s' = hits s + misses s + 1 /\
  (hits s' = hits s + 1 <-> dict_get key (cache s) <> None) /\
  (forall e, dict_get key (cache s) = Some e ->
     dict_get key (cache s') =
       Some (mkEntry now (activations e) (dependencies e) (hit_count e + 1) (size_bytes e))) /\
  map fst (cache s') = map fst (cache s) /\
  stored_bytes s' = stored_bytes s /\ current_size_bytes s' = current_size_bytes s /\
  evictions s' = evictions s /\ max_size_bytes s' = max_size_bytes s.
Proof.
  unfold get. destruct (dict_get key (cache s)) as [e|] eqn:Eg; cbn [fst snd].
  - unfold stored_bytes. cbn [cache hits misses current_size_bytes evictions max_size_bytes].
    split; [done|]. split; [lia|]. split; [split; [discriminate | lia]|].
    split; [intros e0 [= <-]; apply dict_get_set_eq|].
    split; [exact (dict_set_keys _ _ _ _ Eg)|].
    rewrite (entries_bytes_set_some _ _ _ _ Eg). cbn [size_bytes].
    split; [lia|]. done.
  - unfold set_counters, stored_bytes.
    cbn [cache hits misses current_size_bytes evictions max_size_bytes].
    split; [done|]. split; [lia|]. split; [split; [lia | congruence]|].
    split; [discriminate|]. done.
Qed.

(** [invalidate(keys)] on a cache without duplicate keys: every listed key
    is gone, every other entry is untouched, the running total drops by
    exactly the bytes removed, and the counters are unchanged. *)
Theorem invalidate_removes (keys : list string) (s : TemporalCache) :
  NoDup (map fst (cache s)) ->
  let s' := invalidate keys s in
  (forall k, In k keys -> dict_get k (cache s') = None) /\
  (forall k, ~ In k keys -> dict_get k (cache s') = dict_get k (cache s)) /\
  current_size_bytes s' - stored_bytes s' = current_size_bytes s - stored_bytes s /\
  max_size_bytes s' = max_size_bytes s /\
  hits s' = hits s /\ misses s' = misses s /\ evictions s' = evictions s.
Proof.
  unfold invalidate. revert s. induction keys as [|k0 ks IH]; intros s Hnd; cbn [fold_left].
  - split; [intros k []|]. split; [done|]. done.
  - destruct (invalidate_one_step s k0 Hnd) as (Hnd1 & Hk0 & Hoth & Hgap & Hm & Hh & Hms & He).
    destruct (IH _ Hnd1) as (IH1 & IH2 & IH3 & IH4 & IH5 & IH6 & IH7).
    split.
    { intros k [->|Hin]; [|by apply IH1].
      destruct (in_dec string_dec k ks) as [Hin|Hnin]; [by apply IH1|].
      rewrite IH2 by done. exact Hk0. }
    split.
    { intros k Hnin. rewrite IH2 by (intros Hin; apply Hnin; by right).
      apply Hoth. intros ->. apply Hnin. by left. }
    split; [lia|]. split; [congruence|]. split; [congruence|]. split; congruence.
Qed.

Lemma invalidate_removes_witness :
  NoDup (map fst (cache demo_cache)) /\
  let s' := invalidate ["a"; "c"] demo_cache in
  (forall k, In k ["a"; "c"] -> dict_get k (cache s') = None) /\
  (forall k, ~ In k ["a"; "c"] -> dict_get k (cache s') = dict_get k (cache demo_cache)) /\
  current_size_bytes s' - stored_bytes s' = current_size_bytes demo_cache - stored_bytes demo_cache /\
  max_size_bytes s' = max_size_bytes demo_cache /\
  hits s' = hits demo_cache /\ misses s' = misses demo_cache /\ evictions s' = evictions demo_cache.
Proof.
  split; [apply (bool_decide_unpack _); vm_compute; reflexivity|].
  apply invalidate_removes. apply (bool_decide_unpack _). vm_compute. reflexivity.
Defined.

(** Under "lru" or "lfu", with exact accounting, [put] of activations no
    larger than the capacity returns, and a later [get] of the key hits and
    returns those activations. *)
Theorem put_then_get (key : string) (act : Tensor) (deps : gset string) (now t : Z)
    (s : TemporalCache) :
  (eviction_policy s = "lru" \/ eviction_policy s = "lfu") ->
  current_size_bytes s = stored_bytes s -> tensor_bytes act <= max_size_bytes s ->
  exists s', put key act deps now s = Some (Ok s') /\ snd (get key t s') = Some act.
Proof.
  intros Hp Hacc Hsz. unfold put, put_fuel.
  destruct (put_loop_fits (S (length (cache s))) (tensor_bytes act) s Hp ltac:(lia) Hacc Hsz)
    as (s1 & E). rewrite E. eexists. split; [reflexivity|].
  unfold get, set_cache. cbn [cache]. rewrite dict_get_set_eq. reflexivity.
Qed.

Lemma put_then_get_witness :
  (eviction_policy demo_cache = "lru" \/ eviction_policy demo_cache = "lfu") /\
  current_size_bytes demo_cache = stored_bytes demo_cache /\
  tensor_bytes (mkTensor 4 262144) <= max_size_bytes demo_cache /\
  exists s', put "c" (mkTensor 4 262144) ∅ 5 demo_cache = Some (Ok s') /\
             snd (get "c" 6 s') = Some (mkTensor 4 262144).
Proof.
  split; [left; reflexivity|]. split; [vm_compute; reflexivity|].
  split; [vm_compute; discriminate|].
  apply put_then_get; [left; reflexivity | vm_compute; reflexivity | vm_compute; discriminate].
Defined.

(** [put] of a key not yet stored keeps the gap between the running total
    and the stored bytes: evictions and the new entry are both counted
    exactly. *)
Theorem put_new_key_keeps_gap (key : string) (act : Tensor) (deps : gset string) (now : Z)
    (s s' : TemporalCache) :
  dict_get key (cache s) = None -> put key act deps now s = Some (Ok s') ->
  current_size_bytes s' - stored_bytes s' = current_size_bytes s - stored_bytes s.
Proof.
  intros Hk. unfold put, put_fuel.
  destruct (put_loop _ _ s) as [[[[] s1]|x]|] eqn:E; try discriminate;
    intros [= <-]; destruct (put_loop_step _ _ _ _ _ E) as (G & K & _).
  - unfold set_cache, stored_bytes in *. cbn [cache current_size_bytes].
    rewrite (entries_bytes_set_none _ _ _ (K _ Hk)). cbn [size_bytes]. lia.
  - exact G.
Qed.

Lemma put_new_key_keeps_gap_witness :
  dict_get "c" (cache demo_cache) = None /\
  match put "c" (mkTensor 4 1) ∅ 5 demo_cache with
  | Some (Ok s') =>
      current_size_bytes s' - stored_bytes s' = current_size_bytes demo_cache - stored_bytes demo_cache
  | _ => False
  end.
Proof.
  split; [reflexivity|].
  destruct (put "c" (mkTensor 4 1) ∅ 5 demo_cache) as [[s'|x]|] eqn:E;
    [|vm_compute in E; discriminate..].
  apply (put_new_key_keeps_gap "c" (mkTensor 4 1) ∅ 5 demo_cache s'); [reflexivity | exact E].
Defined.

(** [put] never raises, whatever the policy and the state: [min] is only
    called on a non-empty cache and the key it returns is present. *)
Theorem put_never_raises (key : string) (act : Tensor) (deps : gset string) (now : Z)
    (s : TemporalCache) (x : PyExc) :
  put key act deps now s <> Some (Raise x).
Proof.
  unfold put, put_fuel.
  destruct (put_loop _ _ s) as [[[[] s1]|y]|] eqn:E; try discriminate.
  exfalso. exact (EngineFacts.put_loop_no_raise _ _ _ _ E).
Qed.

(** In every state reached from [TemporalCache(max_size_mb, policy)],
    [get_stats()] raises [ZeroDivisionError] exactly when
    [int(max_size_mb * 1024 * 1024)] is 0, i.e. when
    [-1 < max_size_mb * 1048576 < 1]. *)
Theorem get_stats_zero_capacity (max_size_mb : Q) (policy : string) (ops : list CacheOp)
    (s : TemporalCache) :
  In s (init max_size_mb policy :: run_ops ops (init max_size_mb policy)) ->
  (get_stats s = Raise ZeroDivisionError <-> (-1 < max_size_mb * 1048576 < 1)%Q).
Proof.
  intros Hin.
  assert (Hm : max_size_bytes s = max_size_bytes (init max_size_mb policy)).
  { apply (reachable_forall (fun s' => max_size_bytes s' = max_size_bytes (init max_size_mb policy))
             ops (init max_size_mb policy) s); [|done|exact Hin].
    intros op s1 s2 H1 E. rewrite <- H1. apply (exec_op_counters _ _ _ E). }
  transitivity (max_size_bytes s = 0).
  { unfold get_stats. destruct (Z.eqb_spec (max_size_bytes s) 0); split; congruence. }
  rewrite Hm. unfold init. cbn [max_size_bytes].
  destruct max_size_mb as [a d]. unfold Qlt, Qmult. cbn [Qnum Qden].
  rewrite Pos.mul_1_r, Z.quot_small_iff by lia. lia.
Qed.

Lemma get_stats_zero_capacity_witness :
  hits (stats_state (1 # 2097152) 0) = 1 /\ misses (stats_state (1 # 2097152) 0) = 1 /\
  length (cache (stats_state (1 # 2097152) 0)) = 1%nat /\
  get_stats (stats_state (1 # 2097152) 0) = Raise ZeroDivisionError /\
  (get_stats (stats_state (1 # 2097152) 0) = Raise ZeroDivisionError <->
   (-1 < (1 # 2097152) * 1048576 < 1)%Q) /\
  (get_stats (stats_state 1 262144) = Raise ZeroDivisionError <-> (-1 < 1 * 1048576 < 1)%Q).
Proof.
  split; [vm_compute; reflexivity|]. split; [vm_compute; reflexivity|].
  split; [vm_compute; reflexivity|]. split; [vm_compute; reflexivity|]. split.
  - apply (get_stats_zero_capacity (1 # 2097152) "lru" (stats_ops 0)).
    vm_compute. right. right. right. left. reflexivity.
  - apply (get_stats_zero_capacity 1 "lru" (stats_ops 262144)).
    vm_compute. right. right. right. left. reflexivity.
Defined.

(** In every state reached from a cache built with [max_size_mb >= 0],
    [get_stats()] when it returns reports a [hit_rate] and a [utilization]
    between 0 and 1. *)
Theorem get_stats_bounds (max_size_mb : Q) (policy : string) (ops : list CacheOp)
    (s : TemporalCache) (st : CacheStats) :
  (0 <= max_size_mb)%Q ->
  In s (init max_size_mb policy :: run_ops ops (init max_size_mb policy)) ->
  get_stats s = Ok st ->
  (0 <= st_hit_rate st <= 1)%Q /\ (0 <= st_utilization st <= 1)%Q.
Proof.
  intros H0 Hin Hst.
  assert (Hinv : cache_inv s /\ 0 <= hits s /\ 0 <= misses s).
  { apply (reachable_forall (fun s' => cache_inv s' /\ 0 <= hits s' /\ 0 <= misses s') ops
             (init max_size_mb policy) s);
      [| |exact Hin].
    - intros op s1 s2 (I1 & Hh & Hm) E. split; [exact (exec_op_inv _ _ _ I1 E)|].
      destruct (exec_op_counters _ _ _ E) as (_ & Hh' & Hm'). lia.
    - split; [exact (init_inv _ _ H0)|]. simpl. lia. }
  destruct Hinv as ((Hmax & Hnn & Hst' & Hcur) & Hh & Hm).
  pose proof (entries_bytes_nonneg _ Hnn) as Hsb. unfold stored_bytes in Hst'.
  unfold get_stats in Hst. destruct (Z.eqb_spec (max_size_bytes s) 0) as [|Hne]; [discriminate|].
  injection Hst as <-. cbn [st_hit_rate st_utilization]. split.
  - destruct (Z.gtb_spec (hits s + misses s) 0).
    + apply q_ratio_bounds; lia.
    + unfold Qle. simpl. lia.
  - apply q_ratio_bounds; lia.
Qed.

Lemma get_stats_bounds_witness :
  (0 <= 1)%Q /\
  In (stats_state 1 262144) (init 1 "lru" :: run_ops (stats_ops 262144) (init 1 "lru")) /\
  match get_stats (stats_state 1 262144) with
  | Ok st =>
      (st_hit_rate st == 1 # 2)%Q /\ (st_utilization st == 1)%Q /\
      (0 <= st_hit_rate st <= 1)%Q /\ (0 <= st_utilization st <= 1)%Q
  | Raise _ => False
  end.
Proof.
  split; [vm_compute; discriminate|].
  assert (Hin : In (stats_state 1 262144) (init 1 "lru" :: run_ops (stats_ops 262144) (init 1 "lru")))
    by (vm_compute; right; right; right; left; reflexivity).
  split; [exact Hin|].
  destruct (get_stats (stats_state 1 262144)) as [st|x] eqn:E; [|vm_compute in E; discriminate].
  pose proof E as E'. vm_compute in E'. injection E' as Est.
  split; [rewrite <- Est; vm_compute; reflexivity|].
  split; [rewrite <- Est; vm_compute; reflexivity|].
  apply (get_stats_bounds 1 "lru" (stats_ops 262144) (stats_state 1 262144) st);
    [vm_compute; discriminate | exact Hin | exact E].
Defined.

(** [_evict_one()] under "lru" (key [timestamp]) or "lfu" (key
    [hit_count]), on a non-empty cache without duplicate keys, deletes the
    first entry in dict order whose key is minimal: every entry before it
    has a strictly larger key.  The remaining entries keep their order, the
    running total drops by its size and [evictions] grows by one. *)
Theorem evict_one_first_min (s : TemporalCache) (f : CacheEntry -> Z) :
  (eviction_policy s = "lru" /\ f = timestamp \/ eviction_policy s = "lfu" /\ f = hit_count) ->
  NoDup (map fst (cache s)) -> cache s <> [] ->
  exists pre k e post,
    cache s = pre ++ (k, e) :: post /\
    (forall kv, In kv (cache s) -> f e <= f (snd kv)) /\
    (forall kv, In kv pre -> f e < f (snd kv)) /\
    evict_one s = Ok (mkCache (max_size_bytes s) (eviction_policy s) (pre ++ post)
                        (current_size_bytes s - size_bytes e) (hits s) (misses s) (evictions s + 1)).
Proof.
  intros Hp Hnd Hne.
  assert (Hev : evict_one s = evict_by f s).
  { unfold evict_one. destruct Hp as [[Hl ->]|[Hl ->]]; rewrite Hl; reflexivity. }
  rewrite Hev. clear Hev Hp.
  destruct (cache s) as [|kv rest] eqn:Ec; [congruence|].
  destruct (evict_by_spec f s kv rest Ec) as (e & Eg & Eb).
  pose proof (argmin_from_le f kv rest) as Hle.
  destruct (argmin_from_first f kv rest) as (pre & post & Eq & Hpre).
  revert Eg Eb Hle Eq Hpre.
  destruct (argmin_from f kv rest) as [k e0]. cbn [fst snd]. intros Eg Eb Hle Eq Hpre.
  rewrite ?Ec, Eq in Hnd. rewrite map_app in Hnd. cbn [map fst] in Hnd.
  apply NoDup_app in Hnd as (_ & Hdis & _).
  assert (Hk : ~ In k (map fst pre)).
  { intros Hin. apply (Hdis k); [by apply list_elem_of_In|]. apply list_elem_of_In. by left. }
  rewrite Ec, Eq, dict_get_app_notin in Eg by exact Hk. injection Eg as <-.
  exists pre, k, e0, post. split; [exact Eq|]. split; [exact Hle|]. split; [exact Hpre|].
  rewrite Eb, Ec, Eq, dict_del_app_notin by exact Hk. reflexivity.
Qed.

Lemma evict_one_first_min_witness :
  exists pre k e post,
    cache demo_cache = pre ++ (k, e) :: post /\
    (forall kv, In kv (cache demo_cache) -> timestamp e <= timestamp (snd kv)) /\
    (forall kv, In kv pre -> timestamp e < timestamp (snd kv)) /\
    evict_one demo_cache =
      Ok (mkCache (max_size_bytes demo_cache) (eviction_policy demo_cache) (pre ++ post)
            (current_size_bytes demo_cache - size_bytes e) (hits demo_cache) (misses demo_cache)
            (evictions demo_cache + 1)).
Proof.
  apply (evict_one_first_min demo_cache timestamp).
  - left. split; reflexivity.
  - apply (bool_decide_unpack _). vm_compute. reflexivity.
  - vm_compute. discriminate.
Defined.

End CacheExtras.

Module EngineExtras.
Import DepGraph TCache Sparse Scenarios Scenarios2 DepGraphFacts EngineFacts Views
  GraphExtraFacts GraphExtraFacts2 EngineExtraFacts EngineExtraFacts2.



(** [generate_full] when [int(duration_seconds * sample_rate)] is a
    non-negative [n], with a positive frame size and an "lru" or "lfu"
    cache: it returns [n], sets the buffer to [n] samples and
    [current_length_frames] to [n // frame_size], and adds the edges
    [frame_i -> frame_(i-1)] for [i = 1 .. num_frames-1] to the graph it
    had (from a fresh engine: exactly [linear_chain]). *)
Theorem generate_full_builds_chain (prompt : string) (duration : Q) (sample_rate : Z)
    (e : Engine) (n : Z) :
  int_of_float_mul duration sample_rate = Ok n -> 0 <= n -> 0 < frame_size e ->
  (eviction_policy (cache e) = "lru" \/ eviction_policy (cache e) = "lfu") ->
  exists e',
    generate_full prompt duration sample_rate e = Some (e', Ok n) /\
    frame_size e' = frame_size e /\ current_audio e' = Some n /\
    current_length_frames e' = n / frame_size e /\
    dependency_graph e' =
      fold_left (fun g i => add_dependency (frame_key i) (frame_key (i - 1)) g)
        (py_range 1 (n / frame_size e)) (dependency_graph e).
Proof.
  intros Hs Hn Hfs Hp. unfold generate_full.
  rewrite (bind_step _ _ _ _ _ (time_now_eq e)). cbv beta.
  set (e1 := with_clock (clock e + 1) e).
  rewrite (bind_step _ _ e1 e1 n) by (rewrite lift_eq, Hs; reflexivity).
  rewrite (bind_step _ _ e1 e1 (mkTensor 4 (Z.to_N n)))
    by (rewrite lift_eq; unfold py_randn; replace (n <? 0) with false by lia; reflexivity).
  rewrite (bind_step _ _ _ _ _ (get_engine_eq e1)).
  rewrite (bind_step _ _ e1 e1 (n / frame_size e))
    by (rewrite lift_eq; unfold py_floordiv; simpl; replace (frame_size e =? 0) with false by lia;
        reflexivity).
  destruct (generate_frames_returns n (py_range 0 (n / frame_size e)) e1 Hp)
    as (e2 & E2 & P2 & F2 & G2 & A2 & L2).
  rewrite (bind_step _ _ _ _ _ E2).
  rewrite (bind_step _ _ _ _ _ (modify_eq _ e2)).
  rewrite (bind_step _ _ _ _ _ (time_now_eq _)). rewrite ret_eq.
  eexists. split; [reflexivity|]. simpl.
  rewrite F2. split; [reflexivity|]. split; [reflexivity|]. split; [reflexivity|].
  rewrite G2, gen_steps_chain. reflexivity.
Qed.

Lemma generate_full_builds_chain_witness :
  int_of_float_mul (7 # 10) 44100 = Ok 30869 /\ 0 <= 30869 /\ 0 < frame_size fresh_engine /\
  (eviction_policy (cache fresh_engine) = "lru" \/ eviction_policy (cache fresh_engine) = "lfu") /\
  exists e',
    generate_full "prompt" (7 # 10) 44100 fresh_engine = Some (e', Ok 30869) /\
    frame_size e' = frame_size fresh_engine /\ current_audio e' = Some 30869 /\
    current_length_frames e' = 30869 / frame_size fresh_engine /\
    dependency_graph e' =
      fold_left (fun g i => add_dependency (frame_key i) (frame_key (i - 1)) g)
        (py_range 1 (30869 / frame_size fresh_engine)) (dependency_graph fresh_engine).
Proof.
  split; [vm_compute; reflexivity|]. split; [lia|]. split; [reflexivity|].
  split; [left; reflexivity|].
  apply generate_full_builds_chain;
    [vm_compute; reflexivity | lia | reflexivity | left; reflexivity].
Defined.

(** [generate_full] raises, having only taken the clock reading, when
    [int(duration_seconds * sample_rate)] raises ([OverflowError] or
    [ValueError]), when it is negative ([torch.randn] raises
    [RuntimeError]) and, otherwise, when [frame_size] is 0
    ([ZeroDivisionError]). *)
Theorem generate_full_raises (prompt : string) (duration : Q) (sample_rate : Z) (e : Engine)
    (x : PyExc) :
  match int_of_float_mul duration sample_rate with
  | Raise y => x = y
  | Ok n => (n < 0 /\ x = RuntimeError) \/ (0 <= n /\ frame_size e = 0 /\ x = ZeroDivisionError)
  end ->
  generate_full prompt duration sample_rate e = Some (with_clock (clock e + 1) e, Raise x).
Proof.
  intros H. unfold generate_full.
  rewrite (bind_step _ _ _ _ _ (time_now_eq e)). cbv beta.
  set (e1 := with_clock (clock e + 1) e).
  destruct (int_of_float_mul duration sample_rate) as [n|y] eqn:Hs.
  2: { subst y. apply (bind_raise _ _ e1 e1 x). rewrite lift_eq. reflexivity. }
  rewrite (bind_step _ _ e1 e1 n) by (rewrite lift_eq; reflexivity).
  destruct H as [[Hn ->]|(Hn & Hf & ->)].
  - apply (bind_raise _ _ e1 e1 RuntimeError).
    rewrite lift_eq. unfold py_randn. replace (n <? 0) with true by lia. reflexivity.
  - rewrite (bind_step _ _ e1 e1 (mkTensor 4 (Z.to_N n)))
      by (rewrite lift_eq; unfold py_randn; replace (n <? 0) with false by lia; reflexivity).
    rewrite (bind_step _ _ _ _ _ (get_engine_eq e1)).
    apply (bind_raise _ _ e1 e1 ZeroDivisionError).
    rewrite lift_eq. unfold py_floordiv.
    replace (frame_size e1 =? 0) with true by (unfold e1, with_clock; cbn [frame_size]; lia).
    reflexivity.
Qed.

Lemma generate_full_raises_witness :
  (match int_of_float_mul (- (33333333333333333 # 100000000000000000)) 3 with
   | Raise y => RuntimeError = y
   | Ok n => (n < 0 /\ RuntimeError = RuntimeError) \/
             (0 <= n /\ frame_size (new_engine 1000 0) = 0 /\ RuntimeError = ZeroDivisionError)
   end) /\
  generate_full "prompt" (- (33333333333333333 # 100000000000000000)) 3 (new_engine 1000 0) =
    Some (with_clock (clock (new_engine 1000 0) + 1) (new_engine 1000 0), Raise RuntimeError).
Proof.
  split; [vm_compute; left; split; reflexivity|].
  apply generate_full_raises. vm_compute. left. split; reflexivity.
Defined.

(** Whether it returns or raises, [apply_edit] never changes the frame
    size, the dependency graph, the shape of the buffer or the frame
    count. *)
Theorem apply_edit_keeps_buffer (edit : EditOperation) (e e' : Engine) (r : Result Metrics) :
  apply_edit edit e = Some (e', r) ->
  frame_size e' = frame_size e /\ dependency_graph e' = dependency_graph e /\
  current_audio e' = current_audio e /\ current_length_frames e' = current_length_frames e.
Proof. intros H. exact (apply_edit_frozen edit e e' r H). Qed.

Lemma apply_edit_keeps_buffer_witness :
  match apply_edit (edit_at 512 600) chain_engine with
  | Some (e', r) =>
      frame_size e' = frame_size chain_engine /\
      dependency_graph e' = dependency_graph chain_engine /\
      current_audio e' = current_audio chain_engine /\
      current_length_frames e' = current_length_frames chain_engine
  | None => False
  end.
Proof.
  destruct (apply_edit (edit_at 512 600) chain_engine) as [[e' r]|] eqn:E;
    [|vm_compute in E; discriminate].
  exact (apply_edit_keeps_buffer _ _ _ _ E).
Defined.







End EngineExtras.

Module IntegrationExtras.
Import TCache Integration.

(** [enable_temporal_cache()] always fails: [TemporalCache.__init__] takes
    no [sample_rate] argument, so the call raises [TypeError], which is
    caught; the method returns [False] and [self.cache] is left as it was. *)
Theorem enable_temporal_cache_fails (self : MusicGenIntegration) :
  enable_temporal_cache self = (self, false).
Proof. reflexivity. Qed.

End IntegrationExtras.
